(** * Detection results of a talisman run: accumulation and reporting

    Shallow embedding of [detector/detection_results.go].

    Go strings are byte sequences, so a Go [string] is a Rocq [string]
    (a list of 8-bit [ascii]); [len] is [String.length] and the slice
    expressions [s[:n]] and [s[n:]] are positional on bytes.  Go maps
    are finite maps ([gmap]); the order in which [range] visits their
    keys is left open.  Methods with the pointer receiver
    [r *DetectionResults] run in a small state monad whose state holds
    the receiver and the trace of what the process did to the outside
    (standard output, calls of the checksum function). *)

From Stdlib Require Import Ascii String.
From stdpp Require Import gmap strings list fin_maps.

(** ** Data *)

(** [git_repo.FilePath] is a string type: the code converts with
    [string(filePath)]. *)
Abbreviation FilePath := string (only parsing).

Record FailureData : Type := mkFailureData {
  Message : list string;
  Commits : list string
}.

Record DetectionResults : Type := mkDetectionResults {
  Failures : gmap string (list FailureData);
  ignores : gmap string (list string)
}.

(** Modelled from the spec: the struct [FileIgnoreConfig] is declared in
    another file of the package; the spec gives its three fields, in the
    order in which [suggestTalismanRC] fills them. *)
Record FileIgnoreConfig : Type := mkFileIgnoreConfig {
  FileName : string;
  Checksum : string;
  AllowedPatterns : list string
}.

(** Modelled from the spec: the struct [TalismanRCIgnore], declared in
    another file of the package, wraps the sequence of records. *)
Record TalismanRCIgnore : Type := mkTalismanRCIgnore {
  FileIgnoreConfigs : list FileIgnoreConfig
}.

(** The state of a [tablewriter] table when it is rendered. *)
Record Table : Type := mkTable {
  header : list string;
  rowLine : bool;
  rows : list (list string)
}.

(** What the process does to the outside, in order. *)
Inductive Event : Type :=
| Printf (s : string)                 (* fmt.Printf to standard output *)
| Render (t : Table)                  (* table.Render() on os.Stdout *)
| HashCall (paths : list string).     (* CalculateCollectiveHash(paths) *)

Record World : Type := mkWorld {
  receiver : DetectionResults;
  trace : list Event
}.

(** ** The monad of methods *)

Definition M (A : Type) : Type := World -> A * World.

Definition ret {A} (a : A) : M A := fun w => (a, w).

Definition bind {A B} (m : M A) (k : A -> M B) : M B :=
  fun w => let (a, w') := m w in k a w'.

Notation "'do' x <- c1 ; c2" := (bind c1 (fun x => c2))
  (at level 10, x name, c1 at level 100, c2 at level 200,
   format "'[v' 'do'  x  <-  c1 ; '/' c2 ']'").
Notation "'do_' c1 ; c2" := (bind c1 (fun _ => c2))
  (at level 10, c1 at level 100, c2 at level 200,
   format "'[v' 'do_'  c1 ; '/' c2 ']'").

Definition eval {A} (m : M A) (w : World) : A := (m w).1.
Definition exec {A} (m : M A) (w : World) : World := (m w).2.

(** Reading the receiver [r]. *)
Definition this : M DetectionResults := fun w => (receiver w, w).

(** [r.Failures[k] = v] and [r.ignores[k] = v]. *)
Definition store_Failures (k : FilePath) (v : list FailureData) : M unit :=
  fun w =>
    let r := receiver w in
    (tt, mkWorld (mkDetectionResults (<[k := v]> (Failures r)) (ignores r))
                 (trace w)).

Definition store_ignores (k : FilePath) (v : list string) : M unit :=
  fun w =>
    let r := receiver w in
    (tt, mkWorld (mkDetectionResults (Failures r) (<[k := v]> (ignores r)))
                 (trace w)).

Definition emit (e : Event) : M unit :=
  fun w => (tt, mkWorld (receiver w) (trace w ++ [e])).

(** A [for _, x := range l] loop that updates local variables [s]. *)
Fixpoint forRange {A S} (l : list A) (body : S -> A -> M S) (s : S) : M S :=
  match l with
  | [] => ret s
  | x :: l' => do s' <- body s x ; forRange l' body s'
  end.

(** ** String constants and slices *)

Definition LF : string := String (ascii_of_nat 10) EmptyString.
Definition ESC : string := String (ascii_of_nat 27) EmptyString.

(** [s[:n]] and [s[n:]], for [n <= len(s)]. *)
Definition slice_to (n : nat) (s : string) : string := substring 0 n s.
Definition slice_from (n : nat) (s : string) : string :=
  substring n (String.length s - n) s.

(** [strings.Join]. *)
Definition strings_Join (l : list string) (sep : string) : string :=
  String.concat sep l.

Definition banner : string :=
  LF +:+ ESC +:+ "[1m" +:+ ESC +:+ "[31mTalisman Report:"
     +:+ ESC +:+ "[0m" +:+ ESC +:+ "[0m" +:+ LF.

Definition note : string :=
  LF +:+ ESC +:+ "[33mIf you are absolutely sure that you want to ignore the above files from talisman detectors, consider pasting the following format in .talismanrc file in the project root"
     +:+ ESC +:+ "[0m" +:+ LF.

(** ** The store *)

Definition NewFaulureData (message commits : list string) : FailureData :=
  {| Message := message; Commits := commits |}.

Definition NewDetectionResults : DetectionResults :=
  {| Failures := ∅; ignores := ∅ |}.

(** The world in which a run starts. *)
Definition newWorld : World :=
  {| receiver := NewDetectionResults; trace := [] |}.

Definition Fail (filePath : FilePath) (message : string)
    (commits : list string) : M unit :=
  do r <- this ;
  let failureData := NewFaulureData [message] commits in
  match Failures r !! filePath with
  | None => store_Failures filePath [failureData]
  | Some errors => store_Failures filePath (errors ++ [failureData])
  end.

Definition Ignore (filePath : FilePath) (detector : string) : M unit :=
  do r <- this ;
  match ignores r !! filePath with
  | None => store_ignores filePath [detector]
  | Some ignored => store_ignores filePath (ignored ++ [detector])
  end.

Definition HasFailures : M bool :=
  do r <- this ; ret (bool_decide (0 < size (Failures r))).

Definition HasIgnores : M bool :=
  do r <- this ; ret (bool_decide (0 < size (ignores r))).

Definition Successful : M bool :=
  do b <- HasFailures ; ret (negb b).

(** Indexing a map at an absent key yields the zero value, the nil
    slice. *)
Definition GetFailures (fileName : FilePath) : M (list FailureData) :=
  do r <- this ; ret (default [] (Failures r !! fileName)).

(** ** Reporting *)

Definition unique (stringSlice : list string) : list string :=
  snd (fold_left
         (fun (st : gmap string bool * list string) entry =>
            let (keys, list) := st in
            match keys !! entry with
            | None => (<[entry := true]> keys, list ++ [entry])
            | Some _ => st
            end)
         stringSlice (∅, [])).

Definition ReportFileFailures (filePath : FilePath) (toBeScanned : bool)
    : M (list (list string)) :=
  do r <- this ;
  let failures := default [] (Failures r !! filePath) in
  let data : list (list string) := [] in
  if bool_decide (0 < length failures) then
    ret (fold_left
           (fun data failureData =>
              fold_left
                (fun data failureMessage =>
                   let failureMessage :=
                     if bool_decide (150 < String.length failureMessage)
                     then slice_to 150 failureMessage +:+ LF
                            +:+ slice_from 150 failureMessage
                     else failureMessage in
                   if toBeScanned
                   then data ++ [[filePath; failureMessage;
                                  strings_Join (Commits failureData) LF]]
                   else data ++ [[filePath; failureMessage]])
                (Message failureData) data)
           failures data)
  else ret data.

(** The public methods, as a client calls them one after the other. *)
Inductive Call : Type :=
| CallFail (filePath : string) (message : string) (commits : list string)
| CallIgnore (filePath : string) (detector : string)
| CallHasFailures
| CallHasIgnores
| CallSuccessful
| CallGetFailures (fileName : string)
| CallReportFileFailures (filePath : string) (toBeScanned : bool)
| CallReport.

Definition isFail (c : Call) : bool :=
  match c with CallFail _ _ _ => true | _ => false end.

(** The failure data that the [Fail] calls of a run supply for one
    path, in call order. *)
Definition failuresSupplied (p : string) (cs : list Call) : list FailureData :=
  flat_map
    (fun c =>
       match c with
       | CallFail q message commits =>
           if decide (q = p) then [mkFailureData [message] commits] else []
       | _ => []
       end) cs.

Section Report.

(** The checksum function of the package (another file) and the YAML
    encoder (a library), which returns the bytes and an error. *)
Variable CalculateCollectiveHash : list string -> string.
Variable yaml_Marshal : TalismanRCIgnore -> string * option string.

(** The keys of a map in the order in which one [range] loop visits
    them: every key once, in an order the language leaves open. *)
Variable rangeKeys : forall V : Type, gmap string V -> list string.

Definition suggestTalismanRC (filePaths : list string) : M string :=
  do fileIgnoreConfigs <-
    forRange filePaths
      (fun fileIgnoreConfigs filePath =>
         do_ emit (HashCall [filePath]) ;
         let currentChecksum := CalculateCollectiveHash [filePath] in
         let fileIgnoreConfig :=
           mkFileIgnoreConfig filePath currentChecksum [] in
         ret (fileIgnoreConfigs ++ [fileIgnoreConfig]))
      [] ;
  let talismanRcIgnoreConfig := mkTalismanRCIgnore fileIgnoreConfigs in
  let (m, _) := yaml_Marshal talismanRcIgnoreConfig in
  ret m.

Definition Report : M string :=
  let result := EmptyString in
  let table := mkTable ["File"; "Errors"] true [] in
  do r <- this ;
  do st <- forRange (rangeKeys _ (Failures r))
          (fun (st : list string * list (list string)) filePath =>
             let (filePathsForIgnoresAndFailures, data) := st in
             let toBeScanned := false in
             do failureData <- ReportFileFailures filePath toBeScanned ;
             ret (filePathsForIgnoresAndFailures ++ [filePath],
                  data ++ failureData))
          ([], []) ;
  let (filePathsForIgnoresAndFailures, data) := st in
  do filePathsForIgnoresAndFailures <-
    forRange (rangeKeys _ (ignores r))
      (fun filePathsForIgnoresAndFailures filePath =>
         ret (filePathsForIgnoresAndFailures ++ [filePath]))
      filePathsForIgnoresAndFailures ;
  let filePathsForIgnoresAndFailures :=
    unique filePathsForIgnoresAndFailures in
  if bool_decide (0 < size (Failures r)) then
    do_ emit (Printf banner) ;
    do_ emit (Render (mkTable (header table) (rowLine table)
                              (rows table ++ data))) ;
    let result := result +:+ note in
    do suggested <- suggestTalismanRC filePathsForIgnoresAndFailures ;
    let result := result +:+ suggested in
    let result := result +:+ LF +:+ LF in
    ret result
  else ret result.

Definition keys (aMap : gmap string (list string)) : M (list string) :=
  forRange (rangeKeys _ aMap)
    (fun result filePath => ret (result ++ [filePath]))
    [].

Definition ignorePaths : M (list string) :=
  do r <- this ; keys (ignores r).

(** A call whose result the client drops. *)
Definition call (c : Call) : M unit :=
  match c with
  | CallFail filePath message commits => Fail filePath message commits
  | CallIgnore filePath detector => Ignore filePath detector
  | CallHasFailures => do_ HasFailures ; ret tt
  | CallHasIgnores => do_ HasIgnores ; ret tt
  | CallSuccessful => do_ Successful ; ret tt
  | CallGetFailures fileName => do_ GetFailures fileName ; ret tt
  | CallReportFileFailures filePath toBeScanned =>
      do_ ReportFileFailures filePath toBeScanned ; ret tt
  | CallReport => do_ Report ; ret tt
  end.

Fixpoint calls (cs : list Call) : M unit :=
  match cs with
  | [] => ret tt
  | c :: cs' => do_ call c ; calls cs'
  end.

End Report.

(** An enumeration of the keys that [range] may produce, used to run
    the model. *)
Definition keysOf (V : Type) (m : gmap string V) : list string :=
  (map_to_list m).*1.

(** ** Closed forms of the loops, and sample inputs *)

(** The cell that the inner loop of [ReportFileFailures] makes of one
    message. *)
Definition displayCell (failureMessage : string) : string :=
  if bool_decide (150 < String.length failureMessage)
  then slice_to 150 failureMessage +:+ LF +:+ slice_from 150 failureMessage
  else failureMessage.

(** The row that the inner loop of [ReportFileFailures] appends. *)
Definition tableRow (filePath : string) (toBeScanned : bool)
    (failureData : FailureData) (failureMessage : string) : list string :=
  if toBeScanned
  then [filePath; displayCell failureMessage;
        strings_Join (Commits failureData) LF]
  else [filePath; displayCell failureMessage].

(** The records that the loop of [suggestTalismanRC] collects. *)
Definition configsFor (CalculateCollectiveHash : list string -> string)
    (filePaths : list string) : list FileIgnoreConfig :=
  (fun filePath =>
     mkFileIgnoreConfig filePath (CalculateCollectiveHash [filePath]) [])
    <$> filePaths.

(** The paths that [Report] hands to [suggestTalismanRC]. *)
Definition suggestedPaths
    (rangeKeys : forall V : Type, gmap string V -> list string)
    (r : DetectionResults) : list string :=
  unique (rangeKeys _ (Failures r) ++ rangeKeys _ (ignores r)).

(** The rows that [Report] hands to the table: those of each key of
    [Failures], in the order of the loop. *)
Definition tableRows
    (rangeKeys : forall V : Type, gmap string V -> list string)
    (w : World) : list (list string) :=
  concat ((fun p => eval (ReportFileFailures p false) w)
            <$> rangeKeys _ (Failures (receiver w))).

(** A message of 151 bytes. *)
Definition message151 : string :=
  string_of_list_ascii (replicate 151 (ascii_of_nat 120)).

(** A run with two failures on one path and an ignore on another. *)
Definition sampleCalls : list Call :=
  [CallFail "secrets.txt" "AWS key detected" ["abc123"];
   CallIgnore "vendor.js" "filecontent";
   CallHasFailures;
   CallFail "secrets.txt" "High entropy string" [];
   CallIgnore "secrets.txt" "filename"].

(** A checksum function and encoders to run the model with; the second
    encoder fails after it has produced some text. *)
Definition sampleHash (paths : list string) : string :=
  String.concat "," paths.
Definition sampleMarshal (c : TalismanRCIgnore) : string * option string :=
  (String.concat LF (FileName <$> FileIgnoreConfigs c), None).
Definition failingMarshal (c : TalismanRCIgnore) : string * option string :=
  ("fileignoreconfig:", Some "cannot marshal").

Definition sampleWorld : World :=
  exec (calls sampleHash sampleMarshal keysOf sampleCalls) newWorld.

(** A world in which [message151] failed a path. *)
Definition longWorld : World :=
  exec (Fail "big.txt" message151 []) newWorld.

(** A run in which nothing fails, and the world after it. *)
Definition ignoreCalls : list Call :=
  [CallIgnore "a.txt" "filename"; CallGetFailures "a.txt";
   CallIgnore "b.txt" "filesize"].

Definition ignoredWorld : World :=
  exec (calls sampleHash sampleMarshal keysOf ignoreCalls) newWorld.

(** What the report does to a message to make its cell, in the words of
    the specification: a message longer than 150 is split after its
    150th byte and the two pieces are joined by a line feed; a message
    of 151 leaves a rest of one byte; a shorter message is kept. *)
Definition splitAfter150 (message cell : string) : Prop :=
  (150 < String.length message ->
   exists pre suf,
     message = pre +:+ suf /\ String.length pre = 150 /\
     String.length suf = String.length message - 150 /\
     cell = pre +:+ LF +:+ suf) /\
  (String.length message = 151 ->
   exists pre c,
     message = pre +:+ String c EmptyString /\ String.length pre = 150 /\
     cell = pre +:+ LF +:+ String c EmptyString) /\
  (String.length message <= 150 -> cell = message).

(** The invariant of the store: the sequence under an existing key is
    not empty. *)
Definition recorded (r : DetectionResults) : Prop :=
  (forall p fds, Failures r !! p = Some fds -> fds ≠ []) /\
  (forall p ds, ignores r !! p = Some ds -> ds ≠ []).

(** ** Further closed forms and sample inputs *)

Definition isIgnore (c : Call) : bool :=
  match c with CallIgnore _ _ => true | _ => false end.

(** The detector names that the [Ignore] calls of a run supply for one
    path, in call order. *)
Definition ignoresSupplied (p : string) (cs : list Call) : list string :=
  flat_map
    (fun c =>
       match c with
       | CallIgnore q detector => if decide (q = p) then [detector] else []
       | _ => []
       end) cs.

(** The [Fail] calls of a run: path, message and commits of each. *)
Definition failed (cs : list Call) : list (string * (string * list string)) :=
  flat_map
    (fun c =>
       match c with
       | CallFail p message commits => [(p, (message, commits))]
       | _ => []
       end) cs.

(** One row for each [Fail] call on a path, in call order. *)
Definition rowsOfFails (p : string) (toBeScanned : bool) (cs : list Call)
    : list (list string) :=
  flat_map
    (fun c =>
       match c with
       | CallFail q message commits =>
           if decide (q = p)
           then [if toBeScanned
                 then [p; displayCell message; strings_Join commits LF]
                 else [p; displayCell message]]
           else []
       | _ => []
       end) cs.

(** Taking the byte at position 150 out of a cell that is longer than
    151. *)
Definition joinCell (cell : string) : string :=
  if bool_decide (151 < String.length cell)
  then slice_to 150 cell +:+ slice_from 151 cell
  else cell.

(** Another enumeration of the keys: that of [keysOf], backwards. *)
Definition keysOfReversed (V : Type) (m : gmap string V) : list string :=
  reverse (keysOf V m).

(** A message of 400 bytes. *)
Definition message400 : string :=
  string_of_list_ascii (replicate 400 (ascii_of_nat 121)).

(** A run with failures on two paths, and the world after it. *)
Definition mixedCalls : list Call :=
  [CallFail "b.pem" "Bad extension" [];
   CallFail "a.txt" "AWS key detected" ["abc123"; "def456"];
   CallIgnore "c.js" "filesize";
   CallReport;
   CallFail "b.pem" message400 ["abc123"]].

Definition mixedWorld : World :=
  exec (calls sampleHash sampleMarshal keysOf mixedCalls) newWorld.


(** * Properties *)

(** ** The monad *)

Lemma bind_run {A B} (m : M A) (k : A -> M B) (w : World) :
  bind m k w = k (eval m w) (exec m w).
Proof. unfold bind, eval, exec. by destruct (m w). Qed.

Lemma exec_bind {A B} (m : M A) (k : A -> M B) (w : World) :
  exec (bind m k) w = exec (k (eval m w)) (exec m w).
Proof. unfold exec at 1. by rewrite bind_run. Qed.

Lemma eval_bind {A B} (m : M A) (k : A -> M B) (w : World) :
  eval (bind m k) w = eval (k (eval m w)) (exec m w).
Proof. unfold eval at 1. by rewrite bind_run. Qed.

(** A computation that only looks: it leaves the world as it is. *)
Definition readOnly {A} (m : M A) : Prop := forall w, exec m w = w.

(** A computation that may write to the outside but leaves the receiver
    as it is. *)
Definition keepsReceiver {A} (m : M A) : Prop :=
  forall w, receiver (exec m w) = receiver w.

Lemma readOnly_keepsReceiver {A} (m : M A) : readOnly m -> keepsReceiver m.
Proof. intros H w. by rewrite H. Qed.

Lemma readOnly_ret {A} (a : A) : readOnly (ret a).
Proof. done. Qed.

Lemma readOnly_this : readOnly this.
Proof. done. Qed.

Lemma readOnly_bind {A B} (m : M A) (k : A -> M B) :
  readOnly m -> (forall a, readOnly (k a)) -> readOnly (bind m k).
Proof. intros Hm Hk w. by rewrite exec_bind, Hm, Hk. Qed.

Lemma keepsReceiver_bind {A B} (m : M A) (k : A -> M B) :
  keepsReceiver m -> (forall a, keepsReceiver (k a)) -> keepsReceiver (bind m k).
Proof. intros Hm Hk w. by rewrite exec_bind, Hk, Hm. Qed.

Lemma keepsReceiver_emit (e : Event) : keepsReceiver (emit e).
Proof. done. Qed.

Lemma keepsReceiver_forRange {A S} (l : list A) (body : S -> A -> M S) (s : S) :
  (forall s x, keepsReceiver (body s x)) -> keepsReceiver (forRange l body s).
Proof.
  intros Hbody. revert s.
  induction l as [|x l IH]; intros s; simpl.
  - by apply readOnly_keepsReceiver.
  - apply keepsReceiver_bind; auto.
Qed.

(** A loop whose body computes without effects is a left fold. *)
Lemma forRange_pure {A S} (l : list A) (f : S -> A -> S) (s : S) (w : World) :
  forRange l (fun s x => ret (f s x)) s w = (fold_left f l s, w).
Proof.
  revert s. induction l as [|x l IH]; intros s; simpl; [done|].
  rewrite bind_run. apply IH.
Qed.

(** ** Strings *)

Lemma substring_whole (s : string) : substring 0 (String.length s) s = s.
Proof. induction s as [|c s IH]; simpl; [done|]. by rewrite IH. Qed.

Lemma slice_to_length (n : nat) (s : string) :
  n <= String.length s -> String.length (slice_to n s) = n.
Proof.
  unfold slice_to. revert s.
  induction n as [|n IH]; intros [|c s]; simpl; intros H; try done; try lia.
  rewrite IH; lia.
Qed.

Lemma slice_from_length (n : nat) (s : string) :
  n <= String.length s -> String.length (slice_from n s) = String.length s - n.
Proof.
  unfold slice_from. revert s.
  induction n as [|n IH]; intros s H.
  - by rewrite Nat.sub_0_r, substring_whole.
  - destruct s as [|c s]; simpl in *; [lia|]. apply IH. lia.
Qed.

Lemma slice_to_from (n : nat) (s : string) :
  n <= String.length s -> slice_to n s +:+ slice_from n s = s.
Proof.
  unfold slice_to, slice_from. revert s.
  induction n as [|n IH]; intros s H.
  - rewrite Nat.sub_0_r, substring_whole. by destruct s.
  - destruct s as [|c s]; simpl in *; [lia|].
    change (String c (substring 0 n s +:+ substring n (String.length s - n) s)
            = String c s).
    rewrite IH; [done|lia].
Qed.

(** ** The store *)

Lemma readOnly_HasFailures : readOnly HasFailures.
Proof. done. Qed.

Lemma readOnly_HasIgnores : readOnly HasIgnores.
Proof. done. Qed.

Lemma readOnly_Successful : readOnly Successful.
Proof. done. Qed.

Lemma readOnly_GetFailures (p : string) : readOnly (GetFailures p).
Proof. done. Qed.

Lemma readOnly_ReportFileFailures (p : string) (b : bool) :
  readOnly (ReportFileFailures p b).
Proof.
  intros w. unfold ReportFileFailures. rewrite exec_bind.
  by case_bool_decide.
Qed.

Lemma exec_Fail (p message : string) (commits : list string) (w : World) :
  exec (Fail p message commits) w =
  mkWorld
    (mkDetectionResults
       (<[p := eval (GetFailures p) w ++ [mkFailureData [message] commits]]>
          (Failures (receiver w)))
       (ignores (receiver w)))
    (trace w).
Proof.
  unfold Fail. rewrite exec_bind. unfold eval, GetFailures, this, bind, ret; simpl.
  by destruct (Failures (receiver w) !! p).
Qed.

Lemma exec_Ignore (p detector : string) (w : World) :
  exec (Ignore p detector) w =
  mkWorld
    (mkDetectionResults
       (Failures (receiver w))
       (<[p := default [] (ignores (receiver w) !! p) ++ [detector]]>
          (ignores (receiver w))))
    (trace w).
Proof.
  unfold Ignore. rewrite exec_bind. unfold eval, this; simpl.
  by destruct (ignores (receiver w) !! p).
Qed.

Lemma eval_GetFailures (p : string) (w : World) :
  eval (GetFailures p) w = default [] (Failures (receiver w) !! p).
Proof. done. Qed.

Lemma eval_HasFailures (w : World) :
  eval HasFailures w = bool_decide (Failures (receiver w) ≠ ∅).
Proof.
  unfold eval, HasFailures, this, bind, ret; simpl.
  apply bool_decide_ext. rewrite <- map_size_non_empty_iff. lia.
Qed.

Section Properties.

Variable CalculateCollectiveHash : list string -> string.
Variable yaml_Marshal : TalismanRCIgnore -> string * option string.
Variable rangeKeys : forall V : Type, gmap string V -> list string.

Local Abbreviation suggest := (suggestTalismanRC CalculateCollectiveHash yaml_Marshal).
Local Abbreviation report := (Report CalculateCollectiveHash yaml_Marshal rangeKeys).
Local Abbreviation call1 := (call CalculateCollectiveHash yaml_Marshal rangeKeys).
Local Abbreviation callAll := (calls CalculateCollectiveHash yaml_Marshal rangeKeys).

(** *** Reporting leaves the receiver alone *)

Lemma keepsReceiver_suggestTalismanRC (filePaths : list string) :
  keepsReceiver (suggest filePaths).
Proof.
  unfold suggestTalismanRC. apply keepsReceiver_bind.
  - apply keepsReceiver_forRange. intros s x.
    apply keepsReceiver_bind; [apply keepsReceiver_emit|].
    intros _. by apply readOnly_keepsReceiver.
  - intros cfgs. destruct (yaml_Marshal _). by apply readOnly_keepsReceiver.
Qed.

Lemma keepsReceiver_Report : keepsReceiver report.
Proof.
  unfold Report. apply keepsReceiver_bind; [by apply readOnly_keepsReceiver|].
  intros r. apply keepsReceiver_bind.
  { apply keepsReceiver_forRange. intros [paths data] p.
    apply keepsReceiver_bind.
    - apply readOnly_keepsReceiver, readOnly_ReportFileFailures.
    - intros rows. by apply readOnly_keepsReceiver. }
  intros [paths data]. apply keepsReceiver_bind.
  { apply keepsReceiver_forRange. intros s x. by apply readOnly_keepsReceiver. }
  intros paths'. case_bool_decide; [|by apply readOnly_keepsReceiver].
  repeat (apply keepsReceiver_bind; [apply keepsReceiver_emit|]; intros _).
  apply keepsReceiver_bind; [apply keepsReceiver_suggestTalismanRC|].
  intros suggested. by apply readOnly_keepsReceiver.
Qed.

(** *** One call *)

Lemma exec_calls_cons (c : Call) (cs : list Call) (w : World) :
  exec (callAll (c :: cs)) w = exec (callAll cs) (exec (call1 c) w).
Proof. simpl. by rewrite exec_bind. Qed.

(** Only [Fail] and [Ignore] write to the receiver. *)
Lemma receiver_call (c : Call) (w : World) :
  receiver (exec (call1 c) w) =
  match c with
  | CallFail p message commits =>
      mkDetectionResults
        (<[p := eval (GetFailures p) w ++ [mkFailureData [message] commits]]>
           (Failures (receiver w)))
        (ignores (receiver w))
  | CallIgnore p detector =>
      mkDetectionResults
        (Failures (receiver w))
        (<[p := default [] (ignores (receiver w) !! p) ++ [detector]]>
           (ignores (receiver w)))
  | _ => receiver w
  end.
Proof.
  destruct c; simpl.
  - by rewrite exec_Fail.
  - by rewrite exec_Ignore.
  - done.
  - done.
  - done.
  - done.
  - rewrite exec_bind. simpl. by rewrite readOnly_ReportFileFailures.
  - rewrite exec_bind. simpl. apply keepsReceiver_Report.
Qed.

Lemma GetFailures_call (p : string) (c : Call) (w : World) :
  eval (GetFailures p) (exec (call1 c) w) =
  eval (GetFailures p) w ++ failuresSupplied p [c].
Proof.
  rewrite !eval_GetFailures, receiver_call.
  destruct c; simpl; rewrite ?app_nil_r; try done.
  case_decide as Hq.
  - subst. by rewrite lookup_insert_eq, eval_GetFailures.
  - by rewrite lookup_insert_ne, app_nil_r.
Qed.

Lemma failuresSupplied_cons (p : string) (c : Call) (cs : list Call) :
  failuresSupplied p (c :: cs) = failuresSupplied p [c] ++ failuresSupplied p cs.
Proof. unfold failuresSupplied. simpl. by rewrite app_nil_r. Qed.

Lemma GetFailures_calls (p : string) (cs : list Call) (w : World) :
  eval (GetFailures p) (exec (callAll cs) w) =
  eval (GetFailures p) w ++ failuresSupplied p cs.
Proof.
  revert w. induction cs as [|c cs IH]; intros w.
  - by rewrite app_nil_r.
  - rewrite exec_calls_cons, IH, GetFailures_call.
    by rewrite (failuresSupplied_cons p c cs), app_assoc.
Qed.

Lemma failuresSupplied_same_path (p : string) (l : list (string * list string)) :
  failuresSupplied p ((fun mc => CallFail p mc.1 mc.2) <$> l) =
  (fun mc => mkFailureData [mc.1] mc.2) <$> l.
Proof.
  induction l as [|[m c] l IH]; [done|].
  rewrite fmap_cons, failuresSupplied_cons, IH. simpl.
  by rewrite decide_True.
Qed.

(** C1.  Take any pairs of a message and commits, and call
    [Fail path message commits] for each of them in turn.  Then
    [GetFailures path] returns what it returned before followed by one
    [FailureData] per call, in call order, each holding the message as
    a one-element sequence together with the commits; from a new
    store it returns exactly these.  The same holds when calls of
    other methods and [Fail] calls on other paths come in between:
    [GetFailures path] is then extended by what the [Fail] calls on
    [path] supplied, in call order. *)
Theorem GetFailures_after_Fail_calls (path : string) :
  (forall (l : list (string * list string)),
      let cs := (fun mc => CallFail path mc.1 mc.2) <$> l in
      let supplied := (fun mc => mkFailureData [mc.1] mc.2) <$> l in
      eval (GetFailures path) (exec (callAll cs) newWorld) = supplied /\
      forall w, eval (GetFailures path) (exec (callAll cs) w) =
                eval (GetFailures path) w ++ supplied) /\
  (forall (cs : list Call) (w : World),
      eval (GetFailures path) (exec (callAll cs) w) =
      eval (GetFailures path) w ++ failuresSupplied path cs).
Proof.
  split.
  - intros l cs supplied. subst cs supplied. split.
    + by rewrite GetFailures_calls, failuresSupplied_same_path.
    + intros w. by rewrite GetFailures_calls, failuresSupplied_same_path.
  - apply GetFailures_calls.
Qed.

(** *** Whether anything failed *)

Lemma Failures_empty_call (c : Call) (w : World) :
  Failures (receiver (exec (call1 c) w)) = ∅ <->
  Failures (receiver w) = ∅ /\ isFail c = false.
Proof.
  rewrite receiver_call. destruct c; simpl; try tauto.
  split; [|intros [_ ?]; done].
  intros H. by apply insert_non_empty in H.
Qed.

Lemma Failures_empty_calls (cs : list Call) (w : World) :
  Failures (receiver (exec (callAll cs) w)) = ∅ <->
  Failures (receiver w) = ∅ /\ existsb isFail cs = false.
Proof.
  revert w. induction cs as [|c cs IH]; intros w.
  - simpl. tauto.
  - rewrite exec_calls_cons, IH, Failures_empty_call. simpl.
    rewrite orb_false_iff. tauto.
Qed.

Lemma HasFailures_calls (cs : list Call) :
  eval HasFailures (exec (callAll cs) newWorld) = existsb isFail cs.
Proof.
  rewrite eval_HasFailures.
  destruct (existsb isFail cs) eqn:E.
  - apply bool_decide_eq_true. rewrite Failures_empty_calls, E. by intros [_ ?].
  - apply bool_decide_eq_false. intros H. apply H.
    by apply Failures_empty_calls.
Qed.

(** C8.  After any sequence of calls on a new store, [HasFailures]
    answers true exactly when one of the calls was a [Fail], on
    whatever path; [Successful] answers the negation of [HasFailures]
    in every state; so a run in which nothing failed, whatever was
    ignored, is successful. *)
Theorem HasFailures_iff_some_Fail (cs : list Call) :
  let w := exec (callAll cs) newWorld in
  (eval HasFailures w = true <->
   exists path message commits, CallFail path message commits ∈ cs) /\
  (forall w', eval Successful w' = negb (eval HasFailures w')) /\
  ((forall c, c ∈ cs -> isFail c = false) -> eval Successful w = true).
Proof.
  intros w. subst w. split; [|split].
  - rewrite HasFailures_calls, existsb_exists. split.
    + intros [c [Hin Hc]]. destruct c; try done.
      eexists _, _, _. by apply list_elem_of_In.
    + intros (p & m & commits & Hin).
      exists (CallFail p m commits). split; [by apply list_elem_of_In|done].
  - done.
  - intros Hno.
    change (negb (eval HasFailures (exec (callAll cs) newWorld)) = true).
    rewrite HasFailures_calls. apply negb_true_iff.
    apply not_true_is_false. rewrite existsb_exists.
    intros [c [Hin Hc]]. apply list_elem_of_In, Hno in Hin. congruence.
Qed.

(** *** Existing keys hold something *)

Lemma recorded_call (c : Call) (w : World) :
  recorded (receiver w) -> recorded (receiver (exec (call1 c) w)).
Proof.
  intros [HF HI]. rewrite receiver_call.
  destruct c; try done; split; simpl; try done.
  - intros p fds. rewrite lookup_insert. case_decide; [|by apply HF].
    intros [= <-]. by destruct (eval _ w).
  - intros p ds. rewrite lookup_insert. case_decide; [|by apply HI].
    intros [= <-]. by destruct (default _ _).
Qed.

Lemma recorded_calls (cs : list Call) (w : World) :
  recorded (receiver w) -> recorded (receiver (exec (callAll cs) w)).
Proof.
  revert w. induction cs as [|c cs IH]; intros w Hw; [done|].
  rewrite exec_calls_cons. by apply IH, recorded_call.
Qed.

Lemma failuresSupplied_nonempty (p : string) (cs : list Call) :
  failuresSupplied p cs ≠ [] ->
  exists message commits, CallFail p message commits ∈ cs.
Proof.
  induction cs as [|c cs IH]; [done|].
  rewrite failuresSupplied_cons. intros H.
  destruct (failuresSupplied p [c]) eqn:E.
  - destruct (IH H) as (m & commits & Hin).
    exists m, commits. by apply list_elem_of_further.
  - destruct c; try done. simpl in E. case_decide; [subst|done].
    eexists _, _. apply list_elem_of_here.
Qed.

(** C9.  The invariant that the sequence under every existing key, of
    [Failures] and of [ignores], is not empty holds of a new store
    and is preserved by every call of every method.  So after any
    sequence of calls on a new store a path is a key of [Failures]
    only if a [Fail] call recorded a failure for it, the sequence
    under it is what these calls supplied and is not empty, and the
    sequence under every key of [ignores] is not empty. *)
Theorem keys_hold_recorded_data :
  recorded NewDetectionResults /\
  (forall c w, recorded (receiver w) -> recorded (receiver (exec (call1 c) w))) /\
  (forall cs,
      let r := receiver (exec (callAll cs) newWorld) in
      (forall path fds,
          Failures r !! path = Some fds ->
          fds ≠ [] /\ fds = failuresSupplied path cs /\
          exists message commits, CallFail path message commits ∈ cs) /\
      (forall path detectors,
          ignores r !! path = Some detectors -> detectors ≠ [])).
Proof.
  assert (H0 : recorded NewDetectionResults)
    by (split; intros ? ?; simpl; by rewrite lookup_empty).
  split; [done|]. split; [apply recorded_call|].
  intros cs r.
  destruct (recorded_calls cs newWorld H0) as [HF HI]. fold r in HF, HI.
  split; [|done].
  intros p fds Hp.
  assert (Hne : fds ≠ []) by eauto.
  assert (Hfds : fds = failuresSupplied p cs).
  { pose proof (GetFailures_calls p cs newWorld) as H.
    rewrite !eval_GetFailures in H. fold r in H. by rewrite Hp in H. }
  split; [done|]. split; [done|].
  apply failuresSupplied_nonempty. by rewrite <- Hfds.
Qed.

(** *** Reading *)

(** C10.  [GetFailures] on a path that has no entry in [Failures]
    returns the empty sequence, and a call of [GetFailures] leaves the
    world as it was: both mappings are what they were before the
    call, and in particular no entry has been created. *)
Theorem GetFailures_reads_only (path : string) (w : World) :
  (Failures (receiver w) !! path = None -> eval (GetFailures path) w = []) /\
  exec (GetFailures path) w = w /\
  Failures (receiver (exec (GetFailures path) w)) = Failures (receiver w) /\
  ignores (receiver (exec (GetFailures path) w)) = ignores (receiver w) /\
  (Failures (receiver w) !! path = None ->
   Failures (receiver (exec (GetFailures path) w)) !! path = None).
Proof.
  split; [|by rewrite readOnly_GetFailures].
  intros H. by rewrite eval_GetFailures, H.
Qed.


(** *** The rows of one path *)

Lemma fold_left_same {A B} (f g : B -> A -> B) (l : list A) (acc : B) :
  (forall acc x, f acc x = g acc x) -> fold_left f l acc = fold_left g l acc.
Proof.
  intros Hfg. revert acc.
  induction l as [|x l IH]; intros acc; simpl; [done|]. by rewrite Hfg, IH.
Qed.

Lemma fold_left_snoc_each {A B} (f : A -> B) (l : list A) (acc : list B) :
  fold_left (fun acc x => acc ++ [f x]) l acc = acc ++ (f <$> l).
Proof.
  revert acc. induction l as [|x l IH]; intros acc; simpl.
  - by rewrite app_nil_r.
  - by rewrite IH, <- app_assoc.
Qed.

Lemma fold_left_app_each {A B} (f : A -> list B) (l : list A) (acc : list B) :
  fold_left (fun acc x => acc ++ f x) l acc = acc ++ concat (f <$> l).
Proof.
  revert acc. induction l as [|x l IH]; intros acc; simpl.
  - by rewrite app_nil_r.
  - by rewrite IH, <- app_assoc.
Qed.

Lemma ReportFileFailures_rows (p : string) (toBeScanned : bool) (w : World) :
  eval (ReportFileFailures p toBeScanned) w =
  concat ((fun fd => tableRow p toBeScanned fd <$> Message fd)
            <$> eval (GetFailures p) w).
Proof.
  rewrite eval_GetFailures. unfold ReportFileFailures.
  rewrite eval_bind. change (eval this w) with (receiver w).
  case_bool_decide as Hlen.
  - unfold eval, ret; simpl.
    rewrite <- (app_nil_l (concat _)), <- fold_left_app_each.
    apply fold_left_same. intros data fd.
    rewrite <- fold_left_snoc_each.
    apply fold_left_same. intros data' m.
    unfold tableRow, displayCell. by destruct toBeScanned.
  - destruct (default [] (Failures (receiver w) !! p)); [done|simpl in Hlen; lia].
Qed.

Lemma displayCell_split (m : string) : splitAfter150 m (displayCell m).
Proof.
  unfold displayCell.
  assert (Hlong : 150 < String.length m ->
            exists pre suf, m = pre +:+ suf /\ String.length pre = 150 /\
              String.length suf = String.length m - 150 /\
              slice_to 150 m +:+ LF +:+ slice_from 150 m = pre +:+ LF +:+ suf).
  { intros H. exists (slice_to 150 m), (slice_from 150 m).
    rewrite slice_to_from, slice_to_length, slice_from_length by lia. done. }
  split; [|split].
  - intros H. rewrite bool_decide_eq_true_2 by done. auto.
  - intros H. rewrite bool_decide_eq_true_2 by lia.
    destruct Hlong as (pre & suf & Hm & Hpre & Hsuf & Hcell); [lia|].
    exists pre. destruct suf as [|c [|c' suf]]; simpl in Hsuf; try lia.
    by exists c.
  - intros H. rewrite bool_decide_eq_false_2; [done|lia].
Qed.

(** C3.  The rows that [ReportFileFailures] makes for a path
    correspond one to one, in order, to the messages recorded for it,
    and the second cell of a row is made of its message like this: a
    message longer than 150 is cut into its first 150 bytes and the
    rest, and the cell is the two pieces with one line feed between
    them; for a message of 151 the rest is one byte; a message of 150
    or fewer is the cell as it is.  Lengths and positions count
    bytes, as [len] and slicing do. *)
Theorem long_messages_split_after_150 (path : string) (toBeScanned : bool)
    (w : World) :
  Forall2
    (fun (row : list string) (message : string) =>
       exists cell, row !! 1 = Some cell /\ splitAfter150 message cell)
    (eval (ReportFileFailures path toBeScanned) w)
    (concat (Message <$> eval (GetFailures path) w)).
Proof.
  rewrite ReportFileFailures_rows.
  induction (eval (GetFailures path) w) as [|fd fds IH]; simpl; [constructor|].
  apply Forall2_app; [|done].
  apply Forall2_fmap_l, Forall_Forall2_diag, Forall_forall.
  intros m _. exists (displayCell m). split.
  - unfold tableRow. by destruct toBeScanned.
  - apply displayCell_split.
Qed.


(** *** The suggestion *)

Lemma suggest_loop (filePaths : list string) (acc : list FileIgnoreConfig)
    (w : World) :
  forRange filePaths
    (fun fileIgnoreConfigs filePath =>
       do_ emit (HashCall [filePath]) ;
       let currentChecksum := CalculateCollectiveHash [filePath] in
       let fileIgnoreConfig :=
         mkFileIgnoreConfig filePath currentChecksum [] in
       ret (fileIgnoreConfigs ++ [fileIgnoreConfig]))
    acc w =
  (acc ++ configsFor CalculateCollectiveHash filePaths,
   mkWorld (receiver w)
           (trace w ++ ((fun p => HashCall [p]) <$> filePaths))).
Proof.
  revert acc w. induction filePaths as [|p l IH]; intros acc w.
  - simpl. rewrite !app_nil_r. by destruct w.
  - cbn [forRange]. rewrite bind_run. unfold eval, exec.
    rewrite bind_run. unfold ret at 1 2. cbn [fst snd].
    rewrite IH. simpl. by rewrite <- !app_assoc.
Qed.

Lemma suggestTalismanRC_run (filePaths : list string) (w : World) :
  suggest filePaths w =
  ((yaml_Marshal
      (mkTalismanRCIgnore (configsFor CalculateCollectiveHash filePaths))).1,
   mkWorld (receiver w)
           (trace w ++ ((fun p => HashCall [p]) <$> filePaths))).
Proof.
  unfold suggestTalismanRC. rewrite bind_run.
  unfold eval, exec. rewrite suggest_loop. simpl.
  by destruct (yaml_Marshal _).
Qed.

(** C6.  [suggestTalismanRC] calls the checksum function once for
    each element of its input, in input order, each time with the
    one-element list of that path and never with several paths; what
    it hands to the encoder is one record per path in the same order,
    with the path as file name, the digest returned for that path as
    checksum and the empty sequence as allowed patterns. *)
Theorem one_checksum_call_per_path (filePaths : list string) (w : World) :
  trace (exec (suggest filePaths) w) =
    trace w ++ ((fun filePath => HashCall [filePath]) <$> filePaths) /\
  eval (suggest filePaths) w =
    (yaml_Marshal
       (mkTalismanRCIgnore
          ((fun filePath =>
              {| FileName := filePath;
                 Checksum := CalculateCollectiveHash [filePath];
                 AllowedPatterns := [] |}) <$> filePaths))).1.
Proof. unfold eval, exec. by rewrite suggestTalismanRC_run. Qed.

(** *** The report *)

Lemma forRange_looking {A S} (l : list A) (body : S -> A -> M S)
    (f : S -> A -> S) (s : S) (w : World) :
  (forall s x, body s x w = (f s x, w)) ->
  forRange l body s w = (fold_left f l s, w).
Proof.
  intros Hbody. revert s.
  induction l as [|x l IH]; intros s; simpl; [done|].
  unfold bind. rewrite Hbody. apply IH.
Qed.

Lemma ReportFileFailures_run (p : string) (b : bool) (w : World) :
  ReportFileFailures p b w = (eval (ReportFileFailures p b) w, w).
Proof.
  rewrite <- (readOnly_ReportFileFailures p b w) at 3.
  apply surjective_pairing.
Qed.

Lemma Report_run (w : World) :
  report w =
  if bool_decide (0 < size (Failures (receiver w))) then
    (note +:+
     (yaml_Marshal
        (mkTalismanRCIgnore
           (configsFor CalculateCollectiveHash
              (suggestedPaths rangeKeys (receiver w))))).1
     +:+ LF +:+ LF,
     mkWorld (receiver w)
             (trace w
              ++ [Printf banner;
                  Render (mkTable ["File"; "Errors"] true
                            (tableRows rangeKeys w))]
              ++ ((fun p => HashCall [p])
                    <$> suggestedPaths rangeKeys (receiver w))))
  else (EmptyString, w).
Proof.
  unfold Report, bind, this.
  rewrite (forRange_looking _ _
             (fun st p => (st.1 ++ [p],
                           st.2 ++ eval (ReportFileFailures p false) w))).
  2:{ intros [paths data] p. by rewrite ReportFileFailures_run. }
  assert (Hfold : forall l (st : list string * list (list string)),
             fold_left
               (fun st p => (st.1 ++ [p],
                             st.2 ++ eval (ReportFileFailures p false) w))
               l st =
             (st.1 ++ l,
              st.2 ++ concat ((fun p => eval (ReportFileFailures p false) w)
                                <$> l))).
  { induction l as [|p l IH]; intros [paths data]; simpl.
    - by rewrite !app_nil_r.
    - rewrite IH. simpl. by rewrite <- !app_assoc. }
  rewrite Hfold. cbn [fst snd app].
  rewrite forRange_pure, fold_left_snoc_each, list_fmap_id.
  fold (suggestedPaths rangeKeys (receiver w)). fold (tableRows rangeKeys w).
  case_bool_decide; [|done].
  unfold emit. rewrite suggestTalismanRC_run. unfold ret.
  cbn [fst snd receiver trace header rowLine rows app].
  by rewrite <- !app_assoc.
Qed.


(** C5.  When [Failures] is empty, whatever [ignores] holds, [Report]
    returns the empty string and leaves the world as it was: nothing
    is printed, no table is rendered and no checksum is computed.
    That is the case after every run on a new store in which no call
    was a [Fail]. *)
Theorem Report_silent_without_failures :
  (forall w, Failures (receiver w) = ∅ -> report w = (EmptyString, w)) /\
  (forall cs,
      (forall c, c ∈ cs -> isFail c = false) ->
      let w := exec (callAll cs) newWorld in
      eval report w = EmptyString /\ trace (exec report w) = trace w).
Proof.
  assert (H : forall w, Failures (receiver w) = ∅ -> report w = (EmptyString, w)).
  { intros w Hw. rewrite Report_run, Hw, map_size_empty.
    by rewrite bool_decide_eq_false_2 by lia. }
  split; [done|]. intros cs Hcs w.
  assert (Hw : Failures (receiver w) = ∅).
  { apply Failures_empty_calls. split; [done|].
    apply not_true_is_false. rewrite existsb_exists.
    intros [c [Hin Hc]]. apply list_elem_of_In, Hcs in Hin. congruence. }
  unfold eval, exec. by rewrite (H w Hw).
Qed.

(** C2, as the code has it.  When [Failures] is not empty, the string
    that [Report] returns is the instructional note, then the text
    that the encoder produced for the suggestion, then two line
    feeds.  The banner is not part of it: [Report] prints the banner
    to standard output and then renders the table there, before the
    checksums are computed, and neither is part of the returned
    string. *)
Theorem Report_returns_note_and_suggestion (w : World) :
  0 < size (Failures (receiver w)) ->
  eval report w =
    note +:+ eval (suggest (suggestedPaths rangeKeys (receiver w))) w
         +:+ LF +:+ LF /\
  trace (exec report w) =
    trace w ++ [Printf banner;
                Render (mkTable ["File"; "Errors"] true
                                (tableRows rangeKeys w))]
            ++ ((fun p => HashCall [p])
                  <$> suggestedPaths rangeKeys (receiver w)).
Proof.
  intros H. unfold eval, exec.
  rewrite Report_run, suggestTalismanRC_run.
  by rewrite bool_decide_eq_true_2 by done.
Qed.

(** C7.  Whatever error the encoder returns along with its text,
    [suggestTalismanRC] returns that text: its result and its effects
    are those of a run with an encoder that produces the same text and
    never fails, and its result type has no place for a failure. *)
Theorem suggestTalismanRC_drops_encoder_error (filePaths : list string)
    (w : World) :
  (forall text err,
      yaml_Marshal
        (mkTalismanRCIgnore (configsFor CalculateCollectiveHash filePaths))
        = (text, Some err) ->
      eval (suggest filePaths) w = text) /\
  suggest filePaths w =
    suggestTalismanRC CalculateCollectiveHash
      (fun c => ((yaml_Marshal c).1, None)) filePaths w.
Proof.
  split.
  - intros text err H. unfold eval. by rewrite suggestTalismanRC_run, H.
  - unfold suggestTalismanRC, bind.
    destruct (forRange _ _ _ _) as [cfgs w'].
    by destruct (yaml_Marshal _).
Qed.


(** *** The paths of the suggestion *)

Lemma unique_loop (l : list string) (keys : gmap string bool)
    (list : list string) :
  (forall x, is_Some (keys !! x) <-> x ∈ list) ->
  NoDup list ->
  let list' :=
    (fold_left
       (fun (st : gmap string bool * Datatypes.list string) entry =>
          let (keys, list) := st in
          match keys !! entry with
          | None => (<[entry := true]> keys, list ++ [entry])
          | Some _ => st
          end)
       l (keys, list)).2 in
  NoDup list' /\ forall x, x ∈ list' <-> x ∈ list \/ x ∈ l.
Proof.
  revert keys list. induction l as [|e l IH]; intros keys list Hkeys Hnd; simpl.
  - split; [done|]. intros x. rewrite elem_of_nil. tauto.
  - destruct (keys !! e) eqn:He.
    + destruct (IH keys list Hkeys Hnd) as [Hnd' Hin]. split; [done|].
      intros x. rewrite Hin, elem_of_cons.
      assert (e ∈ list) by (apply Hkeys; eauto).
      split; [tauto|]. intros [?|[->|?]]; tauto.
    + assert (Hnot : e ∉ list).
      { intros Hin. apply Hkeys in Hin. rewrite He in Hin. by destruct Hin. }
      destruct (IH (<[e := true]> keys) (list ++ [e])) as [Hnd' Hin].
      * intros x. rewrite lookup_insert_is_Some, Hkeys, elem_of_app,
          list_elem_of_singleton.
        split.
        { intros [Hex|[_ Hx]]; [right; by symmetry|by left]. }
        intros [Hx|Hex]; [|left; by symmetry].
        destruct (decide (e = x)); auto.
      * apply NoDup_app. split; [done|]. split; [|apply NoDup_singleton].
        intros x Hx. rewrite list_elem_of_singleton. by intros ->.
      * split; [done|]. intros x.
        rewrite Hin, elem_of_app, list_elem_of_singleton, elem_of_cons. tauto.
Qed.

Lemma unique_NoDup (l : list string) : NoDup (unique l).
Proof.
  apply (unique_loop l ∅ []); [|constructor].
  intros x. rewrite lookup_empty, elem_of_nil. split; [by intros []|done].
Qed.

Lemma elem_of_unique (l : list string) (x : string) : x ∈ unique l <-> x ∈ l.
Proof.
  destruct (unique_loop l ∅ []) as [_ H]; [|constructor|].
  - intros y. rewrite lookup_empty, elem_of_nil. split; [by intros []|done].
  - unfold unique. rewrite (H x), elem_of_nil. tauto.
Qed.

Lemma FileName_configsFor (filePaths : list string) :
  FileName <$> configsFor CalculateCollectiveHash filePaths = filePaths.
Proof.
  unfold configsFor. rewrite <- list_fmap_compose. apply list_fmap_id.
Qed.

Section RangeOrder.

(** A [range] loop over a map visits every key once. *)
Hypothesis rangeKeys_visits_keys :
  forall (V : Type) (m : gmap string V),
    rangeKeys V m ≡ₚ (map_to_list m).*1.

Lemma elem_of_rangeKeys {V} (m : gmap string V) (p : string) :
  p ∈ rangeKeys V m <-> p ∈ dom m.
Proof.
  rewrite rangeKeys_visits_keys, dom_alt, elem_of_list_to_set. done.
Qed.

(** C4.  The paths that [Report] hands to the suggestion are without
    duplicates and, as a set, are the keys of [Failures] together
    with the keys of [ignores], however much each key holds; when
    [Failures] is not empty the block in the returned string is the
    encoder's text for one record per such path, and the file names
    of these records are exactly these paths. *)
Theorem suggested_paths_are_union_of_keys (w : World) :
  let r := receiver w in
  let cfgs := configsFor CalculateCollectiveHash (suggestedPaths rangeKeys r) in
  NoDup (FileName <$> cfgs) /\
  list_to_set (FileName <$> cfgs) =@{gset string}
    dom (Failures r) ∪ dom (ignores r) /\
  (0 < size (Failures r) ->
   eval report w =
     note +:+ (yaml_Marshal (mkTalismanRCIgnore cfgs)).1 +:+ LF +:+ LF).
Proof.
  intros r cfgs. subst cfgs. rewrite FileName_configsFor.
  split; [apply unique_NoDup|]. split.
  - apply set_eq. intros p.
    rewrite elem_of_list_to_set. unfold suggestedPaths.
    rewrite elem_of_unique, elem_of_app, !elem_of_rangeKeys, elem_of_union.
    done.
  - intros H. unfold eval. rewrite Report_run.
    by rewrite bool_decide_eq_true_2 by done.
Qed.

End RangeOrder.


(** *** Ignores accumulate *)

Lemma ignoresSupplied_cons (p : string) (c : Call) (cs : list Call) :
  ignoresSupplied p (c :: cs) = ignoresSupplied p [c] ++ ignoresSupplied p cs.
Proof. unfold ignoresSupplied. simpl. by rewrite app_nil_r. Qed.

Lemma ignores_call (p : string) (c : Call) (w : World) :
  default [] (ignores (receiver (exec (call1 c) w)) !! p) =
  default [] (ignores (receiver w) !! p) ++ ignoresSupplied p [c].
Proof.
  rewrite receiver_call.
  destruct c; simpl; rewrite ?app_nil_r; try done.
  case_decide as Hq.
  - subst. by rewrite lookup_insert_eq.
  - by rewrite lookup_insert_ne, app_nil_r.
Qed.

Lemma ignores_calls (p : string) (cs : list Call) (w : World) :
  default [] (ignores (receiver (exec (callAll cs) w)) !! p) =
  default [] (ignores (receiver w) !! p) ++ ignoresSupplied p cs.
Proof.
  revert w. induction cs as [|c cs IH]; intros w.
  - by rewrite app_nil_r.
  - rewrite exec_calls_cons, IH, ignores_call.
    by rewrite (ignoresSupplied_cons p c cs), app_assoc.
Qed.

Lemma ignoresSupplied_nonempty (p : string) (cs : list Call) :
  ignoresSupplied p cs ≠ [] <-> exists detector, CallIgnore p detector ∈ cs.
Proof.
  induction cs as [|c cs IH].
  - split; [done|]. intros [d Hd]. by apply elem_of_nil in Hd.
  - rewrite ignoresSupplied_cons. split.
    + intros H. destruct (ignoresSupplied p [c]) eqn:E.
      * apply IH in H as [d Hd]. exists d. by apply list_elem_of_further.
      * destruct c; try done. simpl in E. case_decide; [subst|done].
        eexists. apply list_elem_of_here.
    + intros [d Hd]. apply elem_of_cons in Hd as [<-|Hd].
      * simpl. by rewrite decide_True.
      * intros Happ. apply app_eq_nil in Happ as [_ Hnil].
        apply IH in Hnil; [done|eauto].
Qed.

Lemma ignores_run (path : string) (cs : list Call) :
  ignores (receiver (exec (callAll cs) newWorld)) !! path =
    match ignoresSupplied path cs with
    | [] => None
    | detectors => Some detectors
    end /\
  (is_Some (ignores (receiver (exec (callAll cs) newWorld)) !! path) <->
   exists detector, CallIgnore path detector ∈ cs).
Proof.
  pose proof (ignores_calls path cs newWorld) as H.
  change (default [] (ignores (receiver newWorld) !! path)) with (@nil string) in H.
  rewrite app_nil_l in H.
  assert (Hrec : recorded (receiver (exec (callAll cs) newWorld))).
  { apply recorded_calls. split; intros ? ?; simpl; by rewrite lookup_empty. }
  destruct Hrec as [_ HI].
  assert (Hlook : ignores (receiver (exec (callAll cs) newWorld)) !! path =
                  match ignoresSupplied path cs with
                  | [] => None
                  | detectors => Some detectors
                  end).
  { destruct (ignores _ !! path) as [ds|] eqn:E; simpl in H.
    - subst ds. destruct (ignoresSupplied path cs) eqn:E'; [|done].
      by apply HI in E.
    - by rewrite <- H. }
  split; [done|].
  rewrite <- ignoresSupplied_nonempty, Hlook.
  destruct (ignoresSupplied path cs); split; try done; try (by intros [? ?]).
Qed.

(** X1.  [Ignore] accumulates like [Fail]: after any calls, the
    sequence under a path in [ignores] is what it was before followed by
    the detector names that the [Ignore] calls on that path supplied,
    in call order and with repetitions kept.  After a run on a new
    store a path is a key of [ignores] exactly when some [Ignore] call
    named it, and then it holds exactly these names. *)
Theorem ignores_after_calls (path : string) (cs : list Call) :
  (forall w,
      default [] (ignores (receiver (exec (callAll cs) w)) !! path) =
      default [] (ignores (receiver w) !! path) ++ ignoresSupplied path cs) /\
  ignores (receiver (exec (callAll cs) newWorld)) !! path =
    match ignoresSupplied path cs with
    | [] => None
    | detectors => Some detectors
    end /\
  (is_Some (ignores (receiver (exec (callAll cs) newWorld)) !! path) <->
   exists detector, CallIgnore path detector ∈ cs).
Proof.
  split; [intros w; apply ignores_calls|apply ignores_run].
Qed.

(** *** Whether anything was ignored *)

Lemma eval_HasIgnores (w : World) :
  eval HasIgnores w = bool_decide (ignores (receiver w) ≠ ∅).
Proof.
  unfold eval, HasIgnores, this, bind, ret; simpl.
  apply bool_decide_ext. rewrite <- map_size_non_empty_iff. lia.
Qed.

Lemma ignores_empty_call (c : Call) (w : World) :
  ignores (receiver (exec (call1 c) w)) = ∅ <->
  ignores (receiver w) = ∅ /\ isIgnore c = false.
Proof.
  rewrite receiver_call. destruct c; simpl; try tauto.
  split; [|intros [_ ?]; done].
  intros H. by apply insert_non_empty in H.
Qed.

Lemma ignores_empty_calls (cs : list Call) (w : World) :
  ignores (receiver (exec (callAll cs) w)) = ∅ <->
  ignores (receiver w) = ∅ /\ existsb isIgnore cs = false.
Proof.
  revert w. induction cs as [|c cs IH]; intros w.
  - simpl. tauto.
  - rewrite exec_calls_cons, IH, ignores_empty_call. simpl.
    rewrite orb_false_iff. tauto.
Qed.

(** X2.  After any run on a new store [HasIgnores] answers true
    exactly when one of the calls was an [Ignore]; failures do not
    count, and [HasFailures] is likewise blind to ignores. *)
Theorem HasIgnores_iff_some_Ignore (cs : list Call) :
  let w := exec (callAll cs) newWorld in
  eval HasIgnores w = existsb isIgnore cs /\
  (eval HasIgnores w = true <->
   exists path detector, CallIgnore path detector ∈ cs) /\
  eval HasFailures w = existsb isFail cs.
Proof.
  intros w. subst w.
  assert (H : eval HasIgnores (exec (callAll cs) newWorld)
              = existsb isIgnore cs).
  { rewrite eval_HasIgnores. destruct (existsb isIgnore cs) eqn:E.
    - apply bool_decide_eq_true. rewrite ignores_empty_calls, E. by intros [_ ?].
    - apply bool_decide_eq_false. intros Hne. apply Hne.
      by apply ignores_empty_calls. }
  split; [done|]. split; [|apply HasFailures_calls].
  rewrite H, existsb_exists. split.
  - intros [c [Hin Hc]]. destruct c; try done.
    eexists _, _. by apply list_elem_of_In.
  - intros (p & d & Hin).
    exists (CallIgnore p d). split; [by apply list_elem_of_In|done].
Qed.

(** *** Calls on different entries commute *)

(** X3.  The store does not depend on how calls that touch different
    entries are interleaved: a [Fail] and an [Ignore] commute, on
    whatever paths, and so do two [Fail] calls, or two [Ignore] calls,
    on different paths. *)
Theorem calls_on_different_entries_commute (p q : string) (w : World) :
  (forall message commits detector,
      exec (Ignore q detector) (exec (Fail p message commits) w) =
      exec (Fail p message commits) (exec (Ignore q detector) w)) /\
  (p ≠ q ->
   (forall m1 c1 m2 c2,
       exec (Fail q m2 c2) (exec (Fail p m1 c1) w) =
       exec (Fail p m1 c1) (exec (Fail q m2 c2) w)) /\
   (forall d1 d2,
       exec (Ignore q d2) (exec (Ignore p d1) w) =
       exec (Ignore p d1) (exec (Ignore q d2) w))).
Proof.
  split.
  - intros m c d. by rewrite !exec_Fail, !exec_Ignore.
  - intros Hpq. split.
    + intros m1 c1 m2 c2. rewrite !exec_Fail, !eval_GetFailures. simpl.
      rewrite !lookup_insert_ne by done.
      by rewrite insert_insert_ne by done.
    + intros d1 d2. rewrite !exec_Ignore. simpl.
      rewrite !lookup_insert_ne by done.
      by rewrite insert_insert_ne by done.
Qed.


(** *** [unique] keeps first occurrences *)

Lemma unique_state (l : list string) :
  let st :=
    fold_left
      (fun (st : gmap string bool * list string) entry =>
         let (keys, list) := st in
         match keys !! entry with
         | None => (<[entry := true]> keys, list ++ [entry])
         | Some _ => st
         end)
      l (∅, []) in
  (forall x, is_Some (st.1 !! x) <-> x ∈ st.2) /\ (forall x, x ∈ st.2 <-> x ∈ l).
Proof.
  induction l as [|e l IH] using rev_ind; simpl.
  - split; [|done]. intros x. rewrite lookup_empty, elem_of_nil.
    split; [by intros []|done].
  - rewrite fold_left_app. simpl.
    destruct (fold_left _ l _) as [keys list]. simpl in IH.
    destruct IH as [Hkeys Hin].
    destruct (keys !! e) eqn:He; simpl.
    + split; [done|]. intros x. rewrite elem_of_app, list_elem_of_singleton, Hin.
      split; [by left|]. intros [Hx| ->]; [done|].
      apply Hin, Hkeys. by exists b.
    + split; intros x.
      * rewrite lookup_insert_is_Some, Hkeys, elem_of_app, list_elem_of_singleton.
        split.
        { intros [Hex|[_ Hx]]; [right; by symmetry|by left]. }
        intros [Hx|Hex]; [|left; by symmetry].
        destruct (decide (e = x)); auto.
      * by rewrite !elem_of_app, Hin.
Qed.

Lemma unique_snoc (l : list string) (x : string) :
  unique (l ++ [x]) = if decide (x ∈ l) then unique l else unique l ++ [x].
Proof.
  unfold unique. rewrite fold_left_app. simpl.
  pose proof (unique_state l) as H. simpl in H.
  destruct (fold_left _ l _) as [keys list]. simpl in *.
  destruct H as [Hkeys Hin].
  destruct (keys !! x) as [b|] eqn:Hx.
  - rewrite decide_True; [done|]. apply Hin, Hkeys. by exists b.
  - rewrite decide_False; [done|]. intros Hl.
    apply Hin, Hkeys in Hl. rewrite Hx in Hl. by destruct Hl.
Qed.

Lemma unique_elem (l : list string) (x : string) : x ∈ unique l <-> x ∈ l.
Proof. apply (proj2 (unique_state l)). Qed.

Lemma unique_without_duplicates (l : list string) : NoDup (unique l).
Proof.
  induction l as [|x l IH] using rev_ind; [constructor|].
  rewrite unique_snoc. case_decide as Hx; [done|].
  apply NoDup_app. split; [done|]. split; [|apply NoDup_singleton].
  intros y Hy. rewrite list_elem_of_singleton. intros ->.
  by apply Hx, unique_elem.
Qed.

Lemma unique_of_NoDup (l : list string) : NoDup l -> unique l = l.
Proof.
  induction l as [|x l IH] using rev_ind; intros Hnd; [done|].
  apply NoDup_app in Hnd as (Hl & Hx & _).
  rewrite unique_snoc, decide_False, IH; [done|done|].
  intros Hin. apply (Hx x Hin). apply list_elem_of_here.
Qed.

(** X4.  [unique] keeps the first occurrence of every string and the
    order of these first occurrences: an element appended to the input
    is appended to the output if it is new and dropped otherwise.  So
    the output is a subsequence of the input without duplicates, an
    input without duplicates is returned as it is, and applying
    [unique] twice is applying it once. *)
Theorem unique_keeps_first_occurrences :
  unique [] = [] /\
  (forall l x,
      unique (l ++ [x]) = if decide (x ∈ l) then unique l else unique l ++ [x]) /\
  (forall l, NoDup (unique l) /\ unique l `sublist_of` l) /\
  (forall l, NoDup l -> unique l = l) /\
  (forall l, unique (unique l) = unique l).
Proof.
  split; [done|]. split; [apply unique_snoc|]. split; [|split].
  - intros l. split; [apply unique_without_duplicates|].
    induction l as [|x l IH] using rev_ind; [done|].
    rewrite unique_snoc. case_decide.
    + by apply sublist_inserts_r.
    + by apply sublist_app.
  - apply unique_of_NoDup.
  - intros l. apply unique_of_NoDup, unique_without_duplicates.
Qed.

(** *** The rows of a path after a run *)

Lemma rows_of_failuresSupplied (p : string) (toBeScanned : bool)
    (cs : list Call) :
  concat ((fun fd => tableRow p toBeScanned fd <$> Message fd)
            <$> failuresSupplied p cs)
  = rowsOfFails p toBeScanned cs.
Proof.
  induction cs as [|c cs IH]; [done|].
  rewrite failuresSupplied_cons, fmap_app, concat_app, IH.
  unfold rowsOfFails at 2. simpl. fold (rowsOfFails p toBeScanned cs).
  destruct c; try done. simpl. case_decide; [|done].
  unfold tableRow. simpl. by destruct toBeScanned.
Qed.

(** X5.  After a run on a new store [ReportFileFailures] gives one row
    for each [Fail] call on the path, in call order: the path, the cell
    made of the message and, when [toBeScanned] is set, the commits of
    that call joined by line feeds.  Calls on other paths and ignores
    add no row, and a path without an entry gives no rows at all. *)
Theorem ReportFileFailures_after_calls (path : string) (toBeScanned : bool) :
  (forall cs,
      eval (ReportFileFailures path toBeScanned) (exec (callAll cs) newWorld)
      = rowsOfFails path toBeScanned cs) /\
  (forall w,
      Failures (receiver w) !! path = None ->
      eval (ReportFileFailures path toBeScanned) w = []).
Proof.
  split.
  - intros cs.
    rewrite ReportFileFailures_rows, GetFailures_calls.
    apply rows_of_failuresSupplied.
  - intros w H. by rewrite ReportFileFailures_rows, eval_GetFailures, H.
Qed.

(** *** What a report leaves behind *)

(** X6.  [Report] does not write to the store: both mappings are
    after the call what they were before, whatever it printed, so
    [GetFailures] and [HasFailures] answer as before; it only adds to
    what the process has written; and a second [Report] that visits the
    keys in the same order returns the same string. *)
Theorem Report_keeps_the_store (w : World) :
  receiver (exec report w) = receiver w /\
  (exists events, trace (exec report w) = trace w ++ events) /\
  (forall path,
      eval (GetFailures path) (exec report w) = eval (GetFailures path) w) /\
  eval HasFailures (exec report w) = eval HasFailures w /\
  eval report (exec report w) = eval report w.
Proof.
  assert (Hr : receiver (exec report w) = receiver w)
    by apply keepsReceiver_Report.
  split; [done|]. split; [|split; [|split]].
  - unfold exec. rewrite Report_run. case_bool_decide; simpl.
    + eexists. reflexivity.
    + exists []. by rewrite app_nil_r.
  - intros p. by rewrite !eval_GetFailures, Hr.
  - by rewrite !eval_HasFailures, Hr.
  - unfold eval. rewrite !Report_run, Hr.
    by case_bool_decide.
Qed.

Lemma Report_empty_iff_no_Failures (w : World) :
  eval report w = EmptyString <-> Failures (receiver w) = ∅.
Proof.
  unfold eval. rewrite Report_run.
  case_bool_decide as Hsize; simpl.
  - split.
    + intros H. apply (f_equal String.length) in H. cbv in H. discriminate H.
    + intros H. rewrite H, map_size_empty in Hsize. lia.
  - split; [|done]. intros _.
    destruct (decide (Failures (receiver w) = ∅)) as [|Hne]; [done|].
    apply map_size_non_empty_iff in Hne. lia.
Qed.

(** X10.  The report is the empty string exactly when the run is
    successful: with a failure recorded the returned string begins
    with the note, and is never empty. *)
Theorem Report_empty_iff_Successful (w : World) :
  eval report w = EmptyString <-> eval Successful w = true.
Proof.
  rewrite Report_empty_iff_no_Failures.
  change (eval Successful w) with (negb (eval HasFailures w)).
  rewrite eval_HasFailures, negb_true_iff, bool_decide_eq_false.
  split; [by intros ? ?|]. intros H.
  by destruct (decide (Failures (receiver w) = ∅)).
Qed.


(** *** Cells keep the message *)

Lemma string_length_app (a b : string) :
  String.length (a +:+ b) = String.length a + String.length b.
Proof. induction a as [|c a IH]; simpl; [done|]. by rewrite IH. Qed.

Lemma string_app_assoc (a b c : string) : (a +:+ b) +:+ c = a +:+ (b +:+ c).
Proof.
  induction a as [|x a IH]; [done|].
  change (String x ((a +:+ b) +:+ c) = String x (a +:+ (b +:+ c))).
  by rewrite IH.
Qed.

Lemma slice_to_app (a b : string) : slice_to (String.length a) (a +:+ b) = a.
Proof.
  unfold slice_to. induction a as [|c a IH]; simpl.
  - by destruct b.
  - by rewrite IH.
Qed.

Lemma slice_from_app (a b : string) : slice_from (String.length a) (a +:+ b) = b.
Proof.
  unfold slice_from. induction a as [|c a IH]; simpl.
  - by rewrite Nat.sub_0_r, substring_whole.
  - apply IH.
Qed.

Lemma joinCell_displayCell (m : string) :
  joinCell (displayCell m) = m /\
  String.length (displayCell m) =
    String.length m + (if bool_decide (150 < String.length m) then 1 else 0).
Proof.
  unfold displayCell. case_bool_decide as Hlen.
  - pose proof (slice_to_length 150 m ltac:(lia)) as Hpre.
    pose proof (slice_from_length 150 m ltac:(lia)) as Hsuf.
    pose proof (slice_to_from 150 m ltac:(lia)) as Hm.
    set (pre := slice_to 150 m) in *. set (suf := slice_from 150 m) in *.
    assert (Hcell : String.length (pre +:+ LF +:+ suf) = String.length m + 1).
    { rewrite !string_length_app, Hpre, Hsuf. simpl. lia. }
    split; [|done].
    unfold joinCell. rewrite bool_decide_eq_true_2 by lia.
    rewrite <- Hpre at 1. rewrite slice_to_app.
    rewrite <- string_app_assoc.
    replace 151 with (String.length (pre +:+ LF))
      by (rewrite string_length_app, Hpre; done).
    by rewrite slice_from_app.
  - split; [|lia]. unfold joinCell. by rewrite bool_decide_eq_false_2 by lia.
Qed.

(** X9.  A cell loses nothing of its message: however long the
    message, the cell is at most one byte longer, exactly one when the
    message is longer than 150, and taking the byte at position 150 out
    of a cell longer than 151 gives the message back.  A message of
    several hundred bytes is thus broken once, not every 150 bytes. *)
Theorem cells_keep_the_message (path : string) (toBeScanned : bool) (w : World) :
  Forall2
    (fun (row : list string) (message : string) =>
       exists cell,
         row !! 1 = Some cell /\
         joinCell cell = message /\
         String.length cell =
           String.length message
           + (if bool_decide (150 < String.length message) then 1 else 0))
    (eval (ReportFileFailures path toBeScanned) w)
    (concat (Message <$> eval (GetFailures path) w)).
Proof.
  rewrite ReportFileFailures_rows.
  induction (eval (GetFailures path) w) as [|fd fds IH]; simpl; [constructor|].
  apply Forall2_app; [|done].
  apply Forall2_fmap_l, Forall_Forall2_diag, Forall_forall.
  intros m _. exists (displayCell m). split.
  - unfold tableRow. by destruct toBeScanned.
  - apply joinCell_displayCell.
Qed.

(** *** The table of the report and the ignored paths *)

Lemma group_by_key {X} (K : list string) (l : list (string * X)) :
  NoDup K -> (forall x, x ∈ l -> x.1 ∈ K) ->
  concat ((fun k => filter (fun x => x.1 = k) l) <$> K) ≡ₚ l.
Proof.
  intros Hnd. induction l as [|x l IH]; intros Hcover.
  - clear. induction K as [|k K IH]; [done|]. apply IH.
  - destruct (list_elem_of_split K x.1) as (K1 & K2 & HK).
    { apply Hcover, list_elem_of_here. }
    assert (Hrest : concat ((fun k => filter (fun y => y.1 = k) l) <$> K) ≡ₚ l).
    { apply IH. intros y Hy. by apply Hcover, list_elem_of_further. }
    subst K. apply NoDup_app in Hnd as (_ & H1 & H2).
    apply NoDup_cons in H2 as [H2 _].
    assert (Hother : forall K' : list string, x.1 ∉ K' ->
               (fun k => filter (fun y => y.1 = k) (x :: l)) <$> K'
               = (fun k => filter (fun y => y.1 = k) l) <$> K').
    { intros K' HK'. apply list_fmap_ext. intros i k Hk.
      apply filter_cons_False. intros <-.
      apply HK'. by eapply list_elem_of_lookup_2. }
    rewrite fmap_app, fmap_cons, concat_app, concat_cons.
    rewrite !Hother.
    2:{ done. }
    2:{ intros Hin. apply (H1 _ Hin). apply list_elem_of_here. }
    rewrite filter_cons_True by done.
    rewrite fmap_app, fmap_cons, concat_app, concat_cons in Hrest.
    rewrite <- app_comm_cons, <- Permutation_middle. by constructor.
Qed.

Lemma rowsOfFails_failed (p : string) (cs : list Call) :
  rowsOfFails p false cs =
  (fun x => [x.1; displayCell x.2.1]) <$> filter (fun x => x.1 = p) (failed cs).
Proof.
  induction cs as [|c cs IH]; [done|].
  unfold rowsOfFails, failed in *. simpl. rewrite IH.
  destruct c; try done. simpl. case_decide.
  - subst. by rewrite filter_cons_True by done.
  - by rewrite filter_cons_False by done.
Qed.

Lemma failed_elem (cs : list Call) (x : string * (string * list string)) :
  x ∈ failed cs -> CallFail x.1 x.2.1 x.2.2 ∈ cs.
Proof.
  induction cs as [|c cs IH]; [by intros ?%elem_of_nil|].
  unfold failed. simpl. fold (failed cs). rewrite elem_of_app. intros [H|H].
  - destruct c; try (by apply elem_of_nil in H).
    apply list_elem_of_singleton in H. subst. apply list_elem_of_here.
  - by apply list_elem_of_further, IH.
Qed.

Lemma failuresSupplied_of_Fail (p message : string) (commits : list string)
    (cs : list Call) :
  CallFail p message commits ∈ cs -> failuresSupplied p cs ≠ [].
Proof.
  induction cs as [|c cs IH]; [by intros ?%elem_of_nil|].
  rewrite failuresSupplied_cons. intros [<-|Hin]%elem_of_cons.
  - unfold failuresSupplied at 1. simpl. by rewrite decide_True.
  - intros [_ Hnil]%app_eq_nil. by apply IH.
Qed.

Lemma keys_run (aMap : gmap string (list string)) (w : World) :
  keys rangeKeys aMap w = (rangeKeys _ aMap, w).
Proof.
  unfold keys. by rewrite forRange_pure, fold_left_snoc_each, list_fmap_id.
Qed.

Section RangeOrderOfReport.

(** A [range] loop over a map visits every key once. *)
Hypothesis rangeKeys_visits_keys :
  forall (V : Type) (m : gmap string V),
    rangeKeys V m ≡ₚ (map_to_list m).*1.

Lemma NoDup_rangeKeys {V} (m : gmap string V) : NoDup (rangeKeys V m).
Proof. rewrite rangeKeys_visits_keys. apply NoDup_fst_map_to_list. Qed.

(** X7.  After a run on a new store the rows that [Report] hands to
    the table are those of each failing path, path after path in the
    order of the loop and within a path in call order; whatever that
    order, they are a rearrangement of one row of two cells, path and
    cell, for each [Fail] call of the run, so there are as many rows as
    [Fail] calls, and when something failed the table with these rows
    and the header File, Errors is rendered. *)
Theorem table_has_one_row_per_Fail (cs : list Call) :
  let w := exec (callAll cs) newWorld in
  tableRows rangeKeys w =
    concat ((fun path => rowsOfFails path false cs)
              <$> rangeKeys _ (Failures (receiver w))) /\
  tableRows rangeKeys w ≡ₚ (fun x => [x.1; displayCell x.2.1]) <$> failed cs /\
  length (tableRows rangeKeys w) = length (failed cs) /\
  Forall (fun row => length row = 2) (tableRows rangeKeys w) /\
  (failed cs ≠ [] ->
   Render (mkTable ["File"; "Errors"] true (tableRows rangeKeys w))
     ∈ trace (exec report w)).
Proof.
  intros w. subst w. set (w := exec (callAll cs) newWorld).
  assert (Hrows : tableRows rangeKeys w =
            concat ((fun path => rowsOfFails path false cs)
                      <$> rangeKeys _ (Failures (receiver w)))).
  { unfold tableRows. f_equal. apply list_fmap_ext. intros i p _.
    unfold w. rewrite ReportFileFailures_rows, GetFailures_calls.
    apply rows_of_failuresSupplied. }
  assert (Hcover : forall x, x ∈ failed cs ->
                     x.1 ∈ rangeKeys _ (Failures (receiver w))).
  { intros x Hx. apply failed_elem in Hx.
    apply (elem_of_rangeKeys rangeKeys_visits_keys), elem_of_dom.
    pose proof (GetFailures_calls x.1 cs newWorld) as H.
    rewrite !eval_GetFailures in H. fold w in H. simpl in H.
    destruct (Failures (receiver w) !! x.1) eqn:E; [eauto|].
    simpl in H. by apply failuresSupplied_of_Fail in Hx. }
  assert (Hperm : tableRows rangeKeys w
                  ≡ₚ (fun x => [x.1; displayCell x.2.1]) <$> failed cs).
  { rewrite Hrows.
    transitivity
      ((fun x : string * (string * list string) => [x.1; displayCell x.2.1])
         <$> concat ((fun k => filter (fun x => x.1 = k) (failed cs))
                       <$> rangeKeys _ (Failures (receiver w)))).
    - clear. induction (rangeKeys _ (Failures (receiver w))) as [|k K IH];
        [done|].
      simpl. by rewrite fmap_app, IH, rowsOfFails_failed.
    - apply fmap_Permutation, group_by_key; [apply NoDup_rangeKeys|done]. }
  split; [done|]. split; [done|]. split; [|split].
  - by rewrite Hperm, length_fmap.
  - rewrite Hperm. apply Forall_fmap, Forall_forall. by intros x _.
  - intros Hne.
    assert (Hsize : 0 < size (Failures (receiver w))).
    { destruct (failed cs) as [|x l] eqn:E; [done|].
      assert (Hin : x.1 ∈ rangeKeys _ (Failures (receiver w))).
      { apply Hcover, list_elem_of_here. }
      apply (elem_of_rangeKeys rangeKeys_visits_keys) in Hin.
      apply elem_of_dom in Hin as [v Hv].
      assert (Failures (receiver w) ≠ ∅) by (intros Hm; by rewrite Hm in Hv).
      apply map_size_non_empty_iff in H. lia. }
    unfold exec at 1. rewrite Report_run, bool_decide_eq_true_2 by done.
    simpl. apply elem_of_app. right.
    apply list_elem_of_further, list_elem_of_here.
Qed.

(** X8.  [ignorePaths] reads the store without changing anything and,
    after a run on a new store, returns every path that some [Ignore]
    call named, each once however often it was ignored, and no other
    path. *)
Theorem ignorePaths_are_the_ignored (cs : list Call) :
  let w := exec (callAll cs) newWorld in
  exec (ignorePaths rangeKeys) w = w /\
  NoDup (eval (ignorePaths rangeKeys) w) /\
  (forall path,
      path ∈ eval (ignorePaths rangeKeys) w <->
      exists detector, CallIgnore path detector ∈ cs).
Proof.
  intros w.
  assert (Hrun : ignorePaths rangeKeys w = (rangeKeys _ (ignores (receiver w)), w)).
  { unfold ignorePaths. rewrite bind_run. apply keys_run. }
  unfold eval, exec. rewrite Hrun. simpl.
  split; [done|]. split; [apply NoDup_rangeKeys|].
  intros p.
  rewrite (elem_of_rangeKeys rangeKeys_visits_keys), elem_of_dom.
  apply ignores_run.
Qed.

End RangeOrderOfReport.


(** *** Nothing is removed *)

Lemma keys_kept_call (p : string) (c : Call) (w : World) :
  (is_Some (Failures (receiver w) !! p) ->
   is_Some (Failures (receiver (exec (call1 c) w)) !! p)) /\
  (is_Some (ignores (receiver w) !! p) ->
   is_Some (ignores (receiver (exec (call1 c) w)) !! p)).
Proof.
  rewrite receiver_call. destruct c; simpl; try done.
  - split; [|done]. intros H. rewrite lookup_insert_is_Some.
    destruct (decide (filePath = p)); auto.
  - split; [done|]. intros H. rewrite lookup_insert_is_Some.
    destruct (decide (filePath = p)); auto.
Qed.

Lemma keys_kept_calls (p : string) (cs : list Call) (w : World) :
  (is_Some (Failures (receiver w) !! p) ->
   is_Some (Failures (receiver (exec (callAll cs) w)) !! p)) /\
  (is_Some (ignores (receiver w) !! p) ->
   is_Some (ignores (receiver (exec (callAll cs) w)) !! p)).
Proof.
  revert w. induction cs as [|c cs IH]; intros w; [done|].
  rewrite exec_calls_cons.
  destruct (keys_kept_call p c w) as [HF HI].
  destruct (IH (exec (call1 c) w)) as [HF' HI']. auto.
Qed.

(** X12.  The store only grows: whatever is called afterwards, the
    failures and the ignores recorded for a path remain, in their
    order, at the front of what is recorded for it later, a key stays a
    key, and [HasFailures] and [HasIgnores] never go back to false. *)
Theorem nothing_is_removed (path : string) (cs : list Call) (w : World) :
  let w' := exec (callAll cs) w in
  eval (GetFailures path) w `prefix_of` eval (GetFailures path) w' /\
  default [] (ignores (receiver w) !! path)
    `prefix_of` default [] (ignores (receiver w') !! path) /\
  (is_Some (Failures (receiver w) !! path) ->
   is_Some (Failures (receiver w') !! path)) /\
  (is_Some (ignores (receiver w) !! path) ->
   is_Some (ignores (receiver w') !! path)) /\
  (eval HasFailures w = true -> eval HasFailures w' = true) /\
  (eval HasIgnores w = true -> eval HasIgnores w' = true).
Proof.
  intros w'. subst w'.
  split; [rewrite GetFailures_calls; by eexists|].
  split; [rewrite ignores_calls; by eexists|].
  split; [apply keys_kept_calls|]. split; [apply keys_kept_calls|].
  rewrite !eval_HasFailures, !eval_HasIgnores, !bool_decide_eq_true.
  split; intros Hne Hempty; apply Hne.
  - by apply Failures_empty_calls in Hempty as [? _].
  - by apply ignores_empty_calls in Hempty as [? _].
Qed.

(** *** The order of the suggestion *)

Lemma unique_app_NoDup (a b : list string) :
  NoDup a -> NoDup b -> unique (a ++ b) = a ++ filter (fun x => x ∉ a) b.
Proof.
  intros Ha. induction b as [|x b IH] using rev_ind; intros Hb.
  - rewrite app_nil_r. simpl. rewrite app_nil_r. by apply unique_of_NoDup.
  - apply NoDup_app in Hb as (Hb & Hx & _).
    rewrite app_assoc, unique_snoc, IH, filter_app by done.
    assert (Hxb : x ∉ b).
    { intros Hin. apply (Hx x Hin), list_elem_of_here. }
    destruct (decide (x ∈ a)) as [Hxa|Hxa].
    + rewrite decide_True by (apply elem_of_app; auto).
      rewrite filter_cons_False by auto. simpl. by rewrite app_nil_r.
    + rewrite decide_False by (rewrite elem_of_app; by intros [?|?]).
      rewrite filter_cons_True by done. simpl. by rewrite app_assoc.
Qed.

Lemma Failures_run_key (p : string) (cs : list Call) :
  is_Some (Failures (receiver (exec (callAll cs) newWorld)) !! p) <->
  exists message commits, CallFail p message commits ∈ cs.
Proof.
  pose proof (GetFailures_calls p cs newWorld) as H.
  rewrite !eval_GetFailures in H.
  change (Failures (receiver newWorld)) with (∅ : gmap string (list FailureData)) in H.
  rewrite lookup_empty in H. simpl in H.
  assert (Hrec : recorded (receiver (exec (callAll cs) newWorld))).
  { apply recorded_calls. split; intros ? ?; simpl; by rewrite lookup_empty. }
  destruct Hrec as [HF _].
  split.
  - intros [fds Hfds]. apply failuresSupplied_nonempty.
    rewrite Hfds in H. simpl in H. rewrite <- H. by eapply HF.
  - intros (m & c & Hin). apply failuresSupplied_of_Fail in Hin.
    destruct (Failures _ !! p); [eauto|]. simpl in H. by rewrite <- H in Hin.
Qed.

Section RangeOrderOfSuggestion.

(** A [range] loop over a map visits every key once. *)
Hypothesis rangeKeys_visits_keys :
  forall (V : Type) (m : gmap string V),
    rangeKeys V m ≡ₚ (map_to_list m).*1.

(** X11.  The suggestion lists the failing paths first, in the order
    in which the loop over [Failures] visited them, and after them the
    paths that were only ignored, in the order of the loop over
    [ignores]; a path that both failed and was ignored is listed among
    the failing ones only.  After a run on a new store the paths listed
    are those named by some [Fail] or [Ignore] call, so with one
    failure recorded every ignored path is suggested as well. *)
Theorem suggestion_lists_failing_paths_first :
  (forall r,
      suggestedPaths rangeKeys r =
      rangeKeys _ (Failures r)
      ++ filter (fun path => path ∉ rangeKeys _ (Failures r))
           (rangeKeys _ (ignores r))) /\
  (forall cs path,
      path ∈ suggestedPaths rangeKeys (receiver (exec (callAll cs) newWorld)) <->
      (exists message commits, CallFail path message commits ∈ cs) \/
      (exists detector, CallIgnore path detector ∈ cs)).
Proof.
  assert (Hnd : forall V (m : gmap string V), NoDup (rangeKeys V m)).
  { intros V m. rewrite rangeKeys_visits_keys. apply NoDup_fst_map_to_list. }
  split.
  - intros r. unfold suggestedPaths. by apply unique_app_NoDup.
  - intros cs p. unfold suggestedPaths.
    rewrite elem_of_unique, elem_of_app.
    rewrite !(elem_of_rangeKeys rangeKeys_visits_keys), !elem_of_dom.
    rewrite Failures_run_key.
    by rewrite (proj2 (ignores_run p cs)).
Qed.

End RangeOrderOfSuggestion.


End Properties.

Section TwoOrders.

Variable CalculateCollectiveHash : list string -> string.
Variable yaml_Marshal : TalismanRCIgnore -> string * option string.

(** Two orders in which the loops of two reports may visit the keys. *)
Variables order1 order2 : forall V : Type, gmap string V -> list string.
Hypothesis order1_visits_keys :
  forall (V : Type) (m : gmap string V), order1 V m ≡ₚ (map_to_list m).*1.
Hypothesis order2_visits_keys :
  forall (V : Type) (m : gmap string V), order2 V m ≡ₚ (map_to_list m).*1.

(** X13.  The order in which [range] visits the keys changes the order
    of a report and nothing else: two reports on the same store have
    the same table rows and suggest the same paths, up to
    rearrangement, and one returns the empty string exactly when the
    other does. *)
Theorem order_changes_only_the_order (w : World) :
  tableRows order1 w ≡ₚ tableRows order2 w /\
  suggestedPaths order1 (receiver w) ≡ₚ suggestedPaths order2 (receiver w) /\
  (eval (Report CalculateCollectiveHash yaml_Marshal order1) w = EmptyString <->
   eval (Report CalculateCollectiveHash yaml_Marshal order2) w = EmptyString).
Proof.
  split; [|split].
  - unfold tableRows.
    assert (Hk : order1 _ (Failures (receiver w))
                 ≡ₚ order2 _ (Failures (receiver w)))
      by (by rewrite order1_visits_keys, order2_visits_keys).
    induction Hk as [|k l1 l2 Hk IH|k k' l|l1 l2 l3 H12 IH12 H23 IH23]; simpl.
    + done.
    + by rewrite IH.
    + rewrite !app_assoc. f_equiv. apply Permutation_app_comm.
    + by etrans.
  - apply NoDup_Permutation; try apply unique_without_duplicates.
    intros p. unfold suggestedPaths.
    rewrite !unique_elem, !elem_of_app.
    by rewrite !order1_visits_keys, !order2_visits_keys.
  - by rewrite !Report_empty_iff_no_Failures.
Qed.

End TwoOrders.

(** * The properties at sample inputs *)

(** C2 as the specification words it fails: in a world with failures
    the string that [Report] returns is not the banner followed by the
    note and the block, and does not even begin with the banner. *)
Lemma Report_result_lacks_banner :
  let result := eval (Report sampleHash sampleMarshal keysOf) sampleWorld in
  let block :=
    eval (suggestTalismanRC sampleHash sampleMarshal
            (suggestedPaths keysOf (receiver sampleWorld))) sampleWorld in
  eval HasFailures sampleWorld = true /\
  result <> banner +:+ note +:+ block /\
  (forall rest, result <> banner +:+ rest) /\
  result = note +:+ block +:+ LF +:+ LF.
Proof.
  split; [by vm_compute|]. split; [|split].
  - intros H. apply (f_equal (String.get 3)) in H.
    vm_compute in H. discriminate H.
  - intros rest H. apply (f_equal (String.get 3)) in H.
    vm_compute in H. discriminate H.
  - by vm_compute.
Qed.

Lemma Report_returns_note_and_suggestion_witness :
  0 < size (Failures (receiver sampleWorld)) /\
  eval (Report sampleHash sampleMarshal keysOf) sampleWorld =
    note +:+ eval (suggestTalismanRC sampleHash sampleMarshal
                     (suggestedPaths keysOf (receiver sampleWorld))) sampleWorld
         +:+ LF +:+ LF.
Proof.
  assert (H : 0 < size (Failures (receiver sampleWorld))) by (vm_compute; lia).
  split; [exact H|].
  exact (proj1 (Report_returns_note_and_suggestion
                  sampleHash sampleMarshal keysOf sampleWorld H)).
Defined.

Lemma long_messages_split_after_150_witness :
  String.length message151 = 151 /\
  exists pre c,
    message151 = pre +:+ String c EmptyString /\ String.length pre = 150 /\
    eval (ReportFileFailures "big.txt" false) longWorld
      = [["big.txt"; pre +:+ LF +:+ String c EmptyString]].
Proof.
  assert (Hlen : String.length message151 = 151) by (by vm_compute).
  split; [exact Hlen|].
  pose proof (long_messages_split_after_150 "big.txt" false longWorld) as H.
  assert (Hrows : eval (ReportFileFailures "big.txt" false) longWorld
                  = [["big.txt"; displayCell message151]]) by (by vm_compute).
  assert (Hmsgs : concat (Message <$> eval (GetFailures "big.txt") longWorld)
                  = [message151]) by (by vm_compute).
  rewrite Hrows, Hmsgs in H.
  apply Forall2_cons_1 in H as [(cell & Hcell & _ & H151 & _) _].
  destruct (H151 Hlen) as (pre & c & Hm & Hpre & Hsplit).
  exists pre, c. split; [exact Hm|]. split; [exact Hpre|].
  injection Hcell as Hcell. by rewrite Hrows, Hcell, Hsplit.
Defined.

Lemma suggested_paths_are_union_of_keys_witness :
  (forall (V : Type) (m : gmap string V), keysOf V m ≡ₚ (map_to_list m).*1) /\
  0 < size (Failures (receiver sampleWorld)) /\
  list_to_set (FileName <$> configsFor sampleHash
                 (suggestedPaths keysOf (receiver sampleWorld)))
    =@{gset string}
    dom (Failures (receiver sampleWorld)) ∪ dom (ignores (receiver sampleWorld)).
Proof.
  assert (H : forall (V : Type) (m : gmap string V),
             keysOf V m ≡ₚ (map_to_list m).*1) by reflexivity.
  split; [exact H|]. split; [vm_compute; lia|].
  exact (proj1 (proj2 (suggested_paths_are_union_of_keys
                         sampleHash sampleMarshal keysOf H sampleWorld))).
Defined.

Lemma Report_silent_without_failures_witness :
  Failures (receiver ignoredWorld) = ∅ /\
  (forall c, c ∈ ignoreCalls -> isFail c = false) /\
  Report sampleHash sampleMarshal keysOf ignoredWorld
    = (EmptyString, ignoredWorld) /\
  trace (exec (Report sampleHash sampleMarshal keysOf) ignoredWorld)
    = trace ignoredWorld.
Proof.
  assert (H : Failures (receiver ignoredWorld) = ∅) by reflexivity.
  assert (Hcs : forall c, c ∈ ignoreCalls -> isFail c = false).
  { apply Forall_forall. repeat constructor. }
  split; [exact H|]. split; [exact Hcs|].
  destruct (Report_silent_without_failures sampleHash sampleMarshal keysOf)
    as [Hw Hrun].
  split; [exact (Hw ignoredWorld H)|].
  exact (proj2 (Hrun ignoreCalls Hcs)).
Defined.

Lemma suggestTalismanRC_drops_encoder_error_witness :
  failingMarshal (mkTalismanRCIgnore (configsFor sampleHash ["secrets.txt"]))
    = ("fileignoreconfig:", Some "cannot marshal") /\
  eval (suggestTalismanRC sampleHash failingMarshal ["secrets.txt"]) newWorld
    = "fileignoreconfig:".
Proof.
  assert (H : failingMarshal
                (mkTalismanRCIgnore (configsFor sampleHash ["secrets.txt"]))
              = ("fileignoreconfig:", Some "cannot marshal")) by reflexivity.
  split; [exact H|].
  exact (proj1 (suggestTalismanRC_drops_encoder_error
                  sampleHash failingMarshal ["secrets.txt"] newWorld) _ _ H).
Defined.

Lemma HasFailures_iff_some_Fail_witness :
  (forall c, c ∈ ignoreCalls -> isFail c = false) /\
  eval Successful ignoredWorld = true.
Proof.
  assert (H : forall c, c ∈ ignoreCalls -> isFail c = false).
  { apply Forall_forall. repeat constructor. }
  split; [exact H|].
  exact (proj2 (proj2 (HasFailures_iff_some_Fail
                         sampleHash sampleMarshal keysOf ignoreCalls)) H).
Defined.

Lemma keys_hold_recorded_data_witness :
  let fds := [mkFailureData ["AWS key detected"] ["abc123"];
              mkFailureData ["High entropy string"] []] in
  Failures (receiver sampleWorld) !! "secrets.txt" = Some fds /\
  ignores (receiver sampleWorld) !! "vendor.js" = Some ["filecontent"] /\
  fds <> [] /\
  (exists message commits,
      CallFail "secrets.txt" message commits ∈ sampleCalls) /\
  recorded NewDetectionResults /\
  recorded
    (receiver (exec (call sampleHash sampleMarshal keysOf
                       (CallFail "other.txt" "Oversized file" []))
                    newWorld)).
Proof.
  intros fds.
  assert (H : Failures (receiver sampleWorld) !! "secrets.txt" = Some fds)
    by (by vm_compute).
  assert (HI : ignores (receiver sampleWorld) !! "vendor.js"
               = Some ["filecontent"]) by (by vm_compute).
  split; [exact H|]. split; [exact HI|].
  destruct (keys_hold_recorded_data sampleHash sampleMarshal keysOf)
    as (Hnew & Hstep & Hrun).
  destruct (proj1 (Hrun sampleCalls) "secrets.txt" fds H) as (Hne & _ & Hex).
  split; [exact Hne|]. split; [exact Hex|]. split; [exact Hnew|].
  exact (Hstep (CallFail "other.txt" "Oversized file" []) newWorld Hnew).
Defined.

Lemma GetFailures_reads_only_witness :
  Failures (receiver sampleWorld) !! "absent.txt" = None /\
  eval (GetFailures "absent.txt") sampleWorld = [] /\
  exec (GetFailures "absent.txt") sampleWorld = sampleWorld /\
  Failures (receiver (exec (GetFailures "absent.txt") sampleWorld))
    !! "absent.txt" = None.
Proof.
  assert (H : Failures (receiver sampleWorld) !! "absent.txt" = None)
    by (by vm_compute).
  split; [exact H|].
  destruct (GetFailures_reads_only "absent.txt" sampleWorld)
    as (H1 & H2 & _ & _ & H5).
  exact (conj (H1 H) (conj H2 (H5 H))).
Defined.

(** ** Further properties at sample inputs *)

Lemma ignores_after_calls_witness :
  ignores (receiver sampleWorld) !! "secrets.txt" = Some ["filename"] /\
  is_Some (ignores (receiver sampleWorld) !! "secrets.txt") /\
  exists detector, CallIgnore "secrets.txt" detector ∈ sampleCalls.
Proof.
  destruct (ignores_after_calls sampleHash sampleMarshal keysOf
              "secrets.txt" sampleCalls) as (_ & Hlook & Hiff).
  assert (H : is_Some (ignores (receiver sampleWorld) !! "secrets.txt")).
  { exists ["filename"]. exact Hlook. }
  split; [exact Hlook|]. split; [exact H|]. exact (proj1 Hiff H).
Defined.

Lemma HasIgnores_iff_some_Ignore_witness :
  eval HasIgnores ignoredWorld = true /\
  exists path detector, CallIgnore path detector ∈ ignoreCalls.
Proof.
  destruct (HasIgnores_iff_some_Ignore sampleHash sampleMarshal keysOf
              ignoreCalls) as (_ & Hiff & _).
  assert (H : eval HasIgnores ignoredWorld = true) by (by vm_compute).
  split; [exact H|]. exact (proj1 Hiff H).
Defined.

Lemma calls_on_different_entries_commute_witness :
  "a.txt" ≠ "b.pem" /\
  exec (Fail "b.pem" "Bad extension" []) (exec (Fail "a.txt" "AWS key" []) newWorld)
  = exec (Fail "a.txt" "AWS key" []) (exec (Fail "b.pem" "Bad extension" []) newWorld).
Proof.
  assert (H : "a.txt" ≠ "b.pem") by done.
  split; [exact H|].
  exact (proj1 (proj2 (calls_on_different_entries_commute
                         "a.txt" "b.pem" newWorld) H)
               "AWS key" [] "Bad extension" []).
Defined.

Lemma unique_keeps_first_occurrences_witness :
  NoDup ["b.pem"; "a.txt"] /\ unique ["b.pem"; "a.txt"] = ["b.pem"; "a.txt"].
Proof.
  assert (H : NoDup ["b.pem"; "a.txt"]).
  { apply (bool_decide_unpack _). by vm_compute. }
  split; [exact H|].
  exact (proj1 (proj2 (proj2 (proj2 unique_keeps_first_occurrences))) _ H).
Defined.

Lemma ReportFileFailures_after_calls_witness :
  Failures (receiver sampleWorld) !! "absent.txt" = None /\
  eval (ReportFileFailures "absent.txt" true) sampleWorld = [] /\
  eval (ReportFileFailures "secrets.txt" true) sampleWorld
    = rowsOfFails "secrets.txt" true sampleCalls.
Proof.
  assert (H : Failures (receiver sampleWorld) !! "absent.txt" = None)
    by (by vm_compute).
  split; [exact H|]. split.
  - exact (proj2 (ReportFileFailures_after_calls
                    sampleHash sampleMarshal keysOf "absent.txt" true)
                 sampleWorld H).
  - exact (proj1 (ReportFileFailures_after_calls
                    sampleHash sampleMarshal keysOf "secrets.txt" true)
                 sampleCalls).
Defined.

Lemma Report_empty_iff_Successful_witness :
  eval Successful ignoredWorld = true /\
  eval (Report sampleHash sampleMarshal keysOf) ignoredWorld = EmptyString.
Proof.
  assert (H : eval Successful ignoredWorld = true) by (by vm_compute).
  split; [exact H|].
  exact (proj2 (Report_empty_iff_Successful
                  sampleHash sampleMarshal keysOf ignoredWorld) H).
Defined.

Lemma table_has_one_row_per_Fail_witness :
  (forall (V : Type) (m : gmap string V), keysOf V m ≡ₚ (map_to_list m).*1) /\
  failed mixedCalls ≠ [] /\
  length (tableRows keysOf mixedWorld) = length (failed mixedCalls) /\
  Render (mkTable ["File"; "Errors"] true (tableRows keysOf mixedWorld))
    ∈ trace (exec (Report sampleHash sampleMarshal keysOf) mixedWorld).
Proof.
  assert (H : forall (V : Type) (m : gmap string V),
             keysOf V m ≡ₚ (map_to_list m).*1) by reflexivity.
  assert (Hne : failed mixedCalls ≠ []) by done.
  destruct (table_has_one_row_per_Fail sampleHash sampleMarshal keysOf H
              mixedCalls) as (_ & _ & Hlen & _ & Hrender).
  split; [exact H|]. split; [exact Hne|]. split; [exact Hlen|].
  exact (Hrender Hne).
Defined.

Lemma ignorePaths_are_the_ignored_witness :
  (forall (V : Type) (m : gmap string V), keysOf V m ≡ₚ (map_to_list m).*1) /\
  (exists detector, CallIgnore "c.js" detector ∈ mixedCalls) /\
  "c.js" ∈ eval (ignorePaths keysOf) mixedWorld.
Proof.
  assert (H : forall (V : Type) (m : gmap string V),
             keysOf V m ≡ₚ (map_to_list m).*1) by reflexivity.
  assert (Hex : exists detector, CallIgnore "c.js" detector ∈ mixedCalls).
  { exists "filesize". do 2 apply list_elem_of_further. apply list_elem_of_here. }
  split; [exact H|]. split; [exact Hex|].
  destruct (ignorePaths_are_the_ignored sampleHash sampleMarshal keysOf H
              mixedCalls) as (_ & _ & Hiff).
  exact (proj2 (Hiff "c.js") Hex).
Defined.

Lemma suggestion_lists_failing_paths_first_witness :
  (forall (V : Type) (m : gmap string V), keysOf V m ≡ₚ (map_to_list m).*1) /\
  (exists detector, CallIgnore "c.js" detector ∈ mixedCalls) /\
  "c.js" ∈ suggestedPaths keysOf (receiver mixedWorld).
Proof.
  assert (H : forall (V : Type) (m : gmap string V),
             keysOf V m ≡ₚ (map_to_list m).*1) by reflexivity.
  assert (Hex : exists detector, CallIgnore "c.js" detector ∈ mixedCalls).
  { exists "filesize". do 2 apply list_elem_of_further. apply list_elem_of_here. }
  split; [exact H|]. split; [exact Hex|].
  destruct (suggestion_lists_failing_paths_first
              sampleHash sampleMarshal keysOf H) as (_ & Hiff).
  exact (proj2 (Hiff mixedCalls "c.js") (or_intror Hex)).
Defined.

Lemma nothing_is_removed_witness :
  eval HasFailures sampleWorld = true /\
  is_Some (Failures (receiver sampleWorld) !! "secrets.txt") /\
  eval HasFailures
    (exec (calls sampleHash sampleMarshal keysOf ignoreCalls) sampleWorld) = true /\
  is_Some
    (Failures
       (receiver (exec (calls sampleHash sampleMarshal keysOf ignoreCalls)
                       sampleWorld)) !! "secrets.txt").
Proof.
  assert (H : eval HasFailures sampleWorld = true) by (by vm_compute).
  assert (Hkey : is_Some (Failures (receiver sampleWorld) !! "secrets.txt")).
  { eexists. by vm_compute. }
  destruct (nothing_is_removed sampleHash sampleMarshal keysOf
              "secrets.txt" ignoreCalls sampleWorld)
    as (_ & _ & Hsome & _ & Hhas & _).
  split; [exact H|]. split; [exact Hkey|]. split; [exact (Hhas H)|].
  exact (Hsome Hkey).
Defined.

Lemma order_changes_only_the_order_witness :
  (forall (V : Type) (m : gmap string V), keysOf V m ≡ₚ (map_to_list m).*1) /\
  (forall (V : Type) (m : gmap string V),
      keysOfReversed V m ≡ₚ (map_to_list m).*1) /\
  tableRows keysOf mixedWorld ≡ₚ tableRows keysOfReversed mixedWorld /\
  suggestedPaths keysOf (receiver mixedWorld)
    ≡ₚ suggestedPaths keysOfReversed (receiver mixedWorld).
Proof.
  assert (H1 : forall (V : Type) (m : gmap string V),
             keysOf V m ≡ₚ (map_to_list m).*1) by reflexivity.
  assert (H2 : forall (V : Type) (m : gmap string V),
             keysOfReversed V m ≡ₚ (map_to_list m).*1).
  { intros V m. apply reverse_Permutation. }
  destruct (order_changes_only_the_order sampleHash sampleMarshal
              keysOf keysOfReversed H1 H2 mixedWorld) as (Hrows & Hpaths & _).
  split; [exact H1|]. split; [exact H2|]. split; [exact Hrows|exact Hpaths].
Defined.
